(** * iOS IPA Renamer: metadata extraction and rename planning

    A shallow embedding of [#iOSIPARenamer.js]: the manifest locator, the
    manifest decoder's format sniffing, the metadata extractor
    ([#extractInfoFromIPA]), the rename planner ([#getNewFilePath]), the
    loop over the files and the cleanup after it ([#renameFiles],
    [#cleanup]), with the properties the specification states about them.

    Strings.  A JavaScript string is modelled by the list of bytes of its
    UTF-8 encoding ([jsstring]).  Every character the program inspects
    (the reserved characters, [/], [.]) is ASCII, and an ASCII byte never
    occurs inside the encoding of another character, so replacing,
    splitting and comparing on bytes agrees with the same operation on
    UTF-16 code units for well-formed strings.

    Besides these, the walk over the directories ([#walkDir]), the lines
    of the log ([LoggerUtils], [#logSuccess], [#logWarning], [#logError]),
    the table of the texts ([L10n]) and the text of the time of a run
    ([PerformanceWrapper.#formatPerformance]) are embedded, with
    properties read off the code.

    Libraries.  The property-list parsers are outside the repository and
    are a parameter ([PlistParsers]).  The [path] module is modelled in its
    POSIX flavour.  An archive is the list of its entries, each with what
    reading it comes to, and may end in a record that yauzl rejects: an
    error that yauzl reports through an [error] event, of the archive or
    of a stream, has no listener in the program and ends the process.

    The file system.  The files are a map from paths to what is at them:
    there are no links, and a path is its own name.  What the operating
    system decides, whether a rename or a deletion fails, is a parameter
    ([Environment]), as is the directory of the script. *)

From Stdlib Require Import Ascii String ZArith DecimalString DecimalZ.
From stdpp Require Import base option list gmap strings.

Open Scope string_scope.
Open Scope list_scope.

(** ** Strings *)

Abbreviation jsstring := (list ascii).

(** A string literal of the source. *)
Definition lit (s : string) : jsstring := list_ascii_of_string s.

(** The double quote, character 34. *)
Definition dquote : ascii := Eval cbv in ascii_of_N 34.

(** The character class of both [replace] calls: slash, backslash, colon,
    asterisk, question mark, double quote, less-than, greater-than and
    vertical bar. *)
Definition reservedChars : list ascii :=
  ["/"; "\"; ":"; "*"; "?"; dquote; "<"; ">"; "|"]%char.

Definition isReserved (c : ascii) : bool := bool_decide (c ∈ reservedChars).

(** [s.replace(/[...]/g, ' ')] for that class: with the [g] flag every
    match of the one-character class is replaced, that is, every reserved
    character becomes a space and every other character stays. *)
Definition replaceReserved (s : jsstring) : jsstring :=
  map (fun c => if isReserved c then " "%char else c) s.

(** [String.prototype.toLowerCase], exact on strings of ASCII characters:
    the letters A to Z are mapped and every other byte is kept.  JavaScript
    also maps letters outside ASCII, one of them (U+212A, the Kelvin sign)
    to the ASCII letter k; where names of any kind are compared in lower
    case, the properties are stated for names of ASCII characters
    ([asciiString]). *)
Definition lowerChar (c : ascii) : ascii :=
  let n := N_of_ascii c in
  if (65 <=? n)%N && (n <=? 90)%N then ascii_of_N (n + 32) else c.

Definition toLowerCase (s : jsstring) : jsstring := map lowerChar s.

(** [s.startsWith(searchString)] *)
Definition startsWith (s searchString : jsstring) : bool :=
  bool_decide (take (length searchString) s = searchString).

(** ** Regular expressions

    The fragment of regular expressions the program's patterns need, with
    matching by derivatives. *)

Inductive regex : Type :=
| Void
| Eps
| Chr (c : ascii)
| NotChr (c : ascii)
| Cat (r1 r2 : regex)
| Alt (r1 r2 : regex)
| Star (r : regex).

(** [r+] *)
Definition Plus (r : regex) : regex := Cat r (Star r).

(** A run of literal characters. *)
Fixpoint Lit (s : jsstring) : regex :=
  match s with
  | [] => Eps
  | c :: s' => Cat (Chr c) (Lit s')
  end.

Fixpoint nullable (r : regex) : bool :=
  match r with
  | Void => false
  | Eps => true
  | Chr _ => false
  | NotChr _ => false
  | Cat r1 r2 => nullable r1 && nullable r2
  | Alt r1 r2 => nullable r1 || nullable r2
  | Star _ => true
  end.

Fixpoint deriv (a : ascii) (r : regex) : regex :=
  match r with
  | Void => Void
  | Eps => Void
  | Chr c => if bool_decide (a = c) then Eps else Void
  | NotChr c => if bool_decide (a = c) then Void else Eps
  | Cat r1 r2 =>
      if nullable r1
      then Alt (Cat (deriv a r1) r2) (deriv a r2)
      else Cat (deriv a r1) r2
  | Alt r1 r2 => Alt (deriv a r1) (deriv a r2)
  | Star r1 => Cat (deriv a r1) (Star r1)
  end.

(** The whole of [s] matches [r]. *)
Fixpoint accepts (r : regex) (s : jsstring) : bool :=
  match s with
  | [] => nullable r
  | a :: s' => accepts (deriv a r) s'
  end.

(** [/r$/.test(s)]: no anchor at the start, so the match may begin at any
    position of [s]; [$] (without the [m] flag) lets it end only at the end
    of [s]. *)
Fixpoint testToEnd (r : regex) (s : jsstring) : bool :=
  accepts r s ||
  match s with
  | [] => false
  | _ :: s' => testToEnd r s'
  end.

(** [/^r$/.test(s)]. *)
Definition testWhole (r : regex) (s : jsstring) : bool := accepts r s.

(** The denotation of a regular expression. *)
Inductive matches : regex -> jsstring -> Prop :=
| MEps : matches Eps []
| MChr c : matches (Chr c) [c]
| MNotChr c a : a <> c -> matches (NotChr c) [a]
| MCat r1 r2 s1 s2 :
    matches r1 s1 -> matches r2 s2 -> matches (Cat r1 r2) (s1 ++ s2)
| MAltL r1 r2 s : matches r1 s -> matches (Alt r1 r2) s
| MAltR r1 r2 s : matches r2 s -> matches (Alt r1 r2) s
| MStarNil r : matches (Star r) []
| MStarCons r s1 s2 :
    matches r s1 -> matches (Star r) s2 -> matches (Star r) (s1 ++ s2).

(** The pattern of the manifest locator,
    [/Payload\/[^/]+\.app\/Info\.plist$/]. *)
Definition manifestPattern : regex :=
  Cat (Lit (lit "Payload/"))
      (Cat (Plus (NotChr "/")) (Lit (lit ".app/Info.plist"))).

Definition isManifestName (name : jsstring) : bool :=
  testToEnd manifestPattern name.

(** The pattern as the specification words it,
    [^Payload/[^/]+\.app/Info\.plist$], anchored at both ends. *)
Definition spec_isManifestName (name : jsstring) : bool :=
  testWhole manifestPattern name.

(** ** [Buffer.prototype.toString]

    [buf.toString()] decodes UTF-8 and puts U+FFFD in the place of every
    maximal ill-formed subsequence.  As a [jsstring] is the UTF-8 encoding
    of the string, decoding copies the well-formed sequences and emits the
    three bytes of U+FFFD for the others. *)

Abbreviation Buffer := (list ascii).

Record Pending : Type := mkPending {
  seen : list ascii;   (* the bytes of the sequence read so far *)
  need : nat;          (* continuation bytes still expected *)
  lower : N;           (* range allowed for the next byte *)
  upper : N
}.

Inductive Lead : Type :=
| LAscii
| LMulti (n : nat) (lo hi : N)
| LInvalid.

Definition classify (b : ascii) : Lead :=
  let n := N_of_ascii b in
  if (n <=? 127)%N then LAscii
  else if (194 <=? n)%N && (n <=? 223)%N then LMulti 1 128 191
  else if (n =? 224)%N then LMulti 2 160 191
  else if (n =? 237)%N then LMulti 2 128 159
  else if (225 <=? n)%N && (n <=? 239)%N then LMulti 2 128 191
  else if (n =? 240)%N then LMulti 3 144 191
  else if (n =? 244)%N then LMulti 3 128 143
  else if (241 <=? n)%N && (n <=? 243)%N then LMulti 3 128 191
  else LInvalid.

(** The encoding of U+FFFD. *)
Definition replacement : jsstring :=
  Eval cbv in [ascii_of_N 239; ascii_of_N 191; ascii_of_N 189].

Fixpoint utf8Decode (st : option Pending) (input : Buffer) : jsstring :=
  match input with
  | [] => match st with None => [] | Some _ => replacement end
  | b :: rest =>
      let start :=
        match classify b with
        | LAscii => b :: utf8Decode None rest
        | LMulti n lo hi => utf8Decode (Some (mkPending [b] n lo hi)) rest
        | LInvalid => replacement ++ utf8Decode None rest
        end in
      match st with
      | None => start
      | Some p =>
          if (lower p <=? N_of_ascii b)%N && (N_of_ascii b <=? upper p)%N
          then match need p with
               | S (S n) =>
                   utf8Decode (Some (mkPending (seen p ++ [b]) (S n) 128 191)) rest
               | _ => seen p ++ b :: utf8Decode None rest
               end
          else replacement ++ start
      end
  end.

Definition toString (buf : Buffer) : jsstring := utf8Decode None buf.

(** ** The [path] module (POSIX flavour)

    [path.dirname], [path.extname], [path.basename] and [path.join] of
    Node.js, for the separator [/]. *)

Module path.

Definition isSep (c : ascii) : bool := bool_decide (c = "/"%char).

(** [s.split('/')] *)
Fixpoint split (s : jsstring) : list jsstring :=
  match s with
  | [] => [[]]
  | c :: s' =>
      if isSep c then [] :: split s'
      else match split s' with
           | seg :: segs => (c :: seg) :: segs
           | [] => [[c]]
           end
  end.

(** [segs.join('/')] *)
Fixpoint joinSegs (segs : list jsstring) : jsstring :=
  match segs with
  | [] => []
  | [seg] => seg
  | seg :: segs' => seg ++ "/"%char :: joinSegs segs'
  end.

Fixpoint dropWhile (f : ascii -> bool) (s : jsstring) : jsstring :=
  match s with
  | [] => []
  | c :: s' => if f c then dropWhile f s' else s
  end.

(** The last portion of a path: its last non-empty segment, trailing
    separators ignored; empty when the path has no such segment. *)
Fixpoint lastPortion' (segs : list jsstring) (acc : jsstring) : jsstring :=
  match segs with
  | [] => acc
  | [] :: segs' => lastPortion' segs' acc
  | seg :: segs' => lastPortion' segs' seg
  end.

Definition lastPortion (p : jsstring) : jsstring := lastPortion' (split p) [].

(** The split of a name at its last dot: the part before the dot, and the
    part from the dot on. *)
Fixpoint lastDot (b : jsstring) : option (jsstring * jsstring) :=
  match b with
  | [] => None
  | c :: b' =>
      match lastDot b' with
      | Some (stem, e) => Some (c :: stem, e)
      | None => if bool_decide (c = "."%char) then Some ([], b) else None
      end
  end.

(** [path.extname]: from the last dot of the last portion to its end;
    empty when the portion has no dot, when its only dot is its first
    character, and for the portion [..]. *)
Definition extOf (b : jsstring) : jsstring :=
  match lastDot b with
  | Some (stem, e) =>
      if bool_decide (stem = []) then []
      else if bool_decide (b = lit "..") then []
      else e
  | None => []
  end.

Definition extname (p : jsstring) : jsstring := extOf (lastPortion p).

Definition stripSuffix (suffix b : jsstring) : option jsstring :=
  let n := (length b - length suffix)%nat in
  if bool_decide (length suffix <= length b) && bool_decide (drop n b = suffix)
  then Some (take n b) else None.

(** [path.basename(p, suffix)]: the last portion, without [suffix] when
    the portion ends with it and is longer than it (the behaviour for the
    suffix [path.extname(p)], the only one the program passes). *)
Definition basename (p suffix : jsstring) : jsstring :=
  let b := lastPortion p in
  match suffix with
  | [] => b
  | _ =>
      if bool_decide (suffix = p) then []
      else match stripSuffix suffix b with
           | Some ((_ :: _) as stem) => stem
           | _ => b
           end
  end.

(** [path.dirname]: Node scans the path from its end down to index 1:
    it skips the trailing separators, then the last portion, and cuts at
    the separator before it. *)
Definition dirname (p : jsstring) : jsstring :=
  match p with
  | [] => lit "."
  | c0 :: _ =>
      let hasRoot := isSep c0 in
      match dropWhile (fun c => negb (isSep c)) (dropWhile isSep (rev p)) with
      | _ :: ((_ :: _) as rest) =>
          if hasRoot && bool_decide (length rest = 1%nat) then lit "//"
          else rev rest
      | _ => if hasRoot then lit "/" else lit "."
      end
  end.

(** [normalizeString]: the segments of the path with the empty and [.]
    segments dropped and every [..] resolved against the segment before
    it; [res] is the stack of the segments kept so far. *)
Fixpoint normalizeSegs (allowAboveRoot : bool) (res : list jsstring)
    (segs : list jsstring) : list jsstring :=
  match segs with
  | [] => rev res
  | seg :: segs' =>
      if bool_decide (seg = []) || bool_decide (seg = lit ".") then
        normalizeSegs allowAboveRoot res segs'
      else if bool_decide (seg = lit "..") then
        match res with
        | top :: res' =>
            if bool_decide (top = lit "..") then
              normalizeSegs allowAboveRoot
                (if allowAboveRoot then seg :: res else res) segs'
            else normalizeSegs allowAboveRoot res' segs'
        | [] =>
            normalizeSegs allowAboveRoot
              (if allowAboveRoot then [seg] else []) segs'
        end
      else normalizeSegs allowAboveRoot (seg :: res) segs'
  end.

(** [path.normalize] *)
Definition normalize (p : jsstring) : jsstring :=
  match p with
  | [] => lit "."
  | c0 :: _ =>
      let isAbsolute := isSep c0 in
      let trailingSeparator :=
        match last p with Some c => isSep c | None => false end in
      let q := joinSegs (normalizeSegs (negb isAbsolute) [] (split p)) in
      match q with
      | [] =>
          if isAbsolute then lit "/"
          else if trailingSeparator then lit "./" else lit "."
      | _ =>
          let q' := if trailingSeparator then q ++ lit "/" else q in
          if isAbsolute then "/"%char :: q' else q'
      end
  end.

(** [path.join(a, b)]: the non-empty arguments joined by [/], then
    normalized. *)
Definition join (a b : jsstring) : jsstring :=
  match a, b with
  | [], [] => lit "."
  | [], _ => normalize b
  | _, [] => normalize a
  | _, _ => normalize (a ++ "/"%char :: b)
  end.

End path.

(** ** Values of a decoded manifest

    What the program observes of a JavaScript value: whether it is truthy,
    whether it is a string, and its conversion to a string inside a
    template literal.  A number is kept as its falsiness (zero and NaN) and
    its rendering; an object (array, dictionary, date, data buffer) as its
    rendering, absent when the conversion raises a TypeError. *)

Inductive JsVal : Type :=
| JUndefined
| JNull
| JBool (b : bool)
| JNum (falsy : bool) (shown : jsstring)
| JStr (s : jsstring)
| JObj (shown : option jsstring).

(** The outcome of an expression that may raise a TypeError. *)
Inductive Result (A : Type) : Type :=
| Ok (a : A)
| Throw.
Arguments Ok {A} a.
Arguments Throw {A}.

#[global] Instance Result_ret : MRet Result := fun _ a => Ok a.
#[global] Instance Result_bind : MBind Result := fun _ _ f r =>
  match r with
  | Ok a => f a
  | Throw => Throw
  end.

Definition truthy (v : JsVal) : bool :=
  match v with
  | JUndefined | JNull => false
  | JBool b => b
  | JNum falsy _ => negb falsy
  | JStr s => bool_decide (s <> [])
  | JObj _ => true
  end.

(** [a || b] *)
Definition jsOr (a b : JsVal) : JsVal := if truthy a then a else b.
Infix "|||" := jsOr (at level 50, left associativity).

(** [data.k] on a dictionary: the value of the key, [undefined] when the
    dictionary has no such key. *)
Definition prop (data : gmap string JsVal) (k : string) : JsVal :=
  default JUndefined (data !! k).

(** [v?.replace(/[...]/g, ' ')]: [undefined] for a nullish [v], the
    replaced string for a string, and a TypeError for every other value,
    which has no callable [replace]. *)
Definition optReplace (v : JsVal) : Result (option jsstring) :=
  match v with
  | JUndefined | JNull => Ok None
  | JStr s => Ok (Some (replaceReserved s))
  | JBool _ | JNum _ _ | JObj _ => Throw
  end.

(** [o || d] for [o] undefined or a string. *)
Definition orString (o : option jsstring) (d : jsstring) : jsstring :=
  match o with
  | Some ((_ :: _) as s) => s
  | _ => d
  end.

(** The conversion of [v] in a template literal. *)
Definition toStr (v : JsVal) : Result jsstring :=
  match v with
  | JUndefined => Ok (lit "undefined")
  | JNull => Ok (lit "null")
  | JBool true => Ok (lit "true")
  | JBool false => Ok (lit "false")
  | JNum _ shown => Ok shown
  | JStr s => Ok s
  | JObj (Some shown) => Ok shown
  | JObj None => Throw
  end.

(** ** The metadata extractor *)

Record AppInfo : Type := mkAppInfo {
  appName : jsstring;
  version : jsstring;
  minIOS : jsstring
}.

(** Lines 160-165 of [#extractInfoFromIPA]. *)
Definition extractAppInfo (data : gmap string JsVal) : Result AppInfo :=
  name ← optReplace (prop data "CFBundleDisplayName" ||| prop data "CFBundleName"
                     ||| prop data "BundleDisplayName"
                     ||| prop data "UILocalizedDisplayName");
  let appName := orString name (lit "UnknownName") in
  let rawVersion :=
    prop data "CFBundleShortVersionString" ||| prop data "CFBundleVersion"
    ||| JNull in
  version ← (if truthy rawVersion
             then v ← toStr rawVersion; mret (lit " [v" ++ v ++ lit "]")
             else mret []);
  os ← toStr (prop data "MinimumOSVersion" ||| JStr (lit "0.0.0"));
  mret (mkAppInfo appName version (lit " [iOS " ++ os ++ lit "]")).

(** ** Settings and the rename planner *)

Record Settings : Type := mkSettings {
  INCLUDE_ORIGINAL_NAME : bool;
  SUPPORTED_EXTENSIONS : list jsstring
}.

Definition iOSIPARenamerSettings : Settings :=
  mkSettings true [lit ".ipa"].

(** The lists of the settings that the walk and the cleanup read. *)
Record ScanSettings : Type := mkScanSettings {
  IGNORED_DIRECTORIES : list jsstring;
  IGNORED_FILES : list jsstring;
  DELETE_ON_COMPLETE : list jsstring
}.

Definition iOSIPARenamerScanSettings : ScanSettings :=
  mkScanSettings
    [lit "#Ignored"; lit "node_modules"]
    [lit "#iOSIPARenamer.bat"; lit "#iOSIPARenamer.js"; lit "package.json";
     lit "package-lock.json"]
    [lit "node_modules"; lit "package.json"; lit "package-lock.json"].

(** [#getNewFilePath]; [None] is the [null] it returns when the new path is
    the original one. *)
Definition getNewFilePath (opts : Settings) (info : AppInfo)
    (fileExt originalPath : jsstring) : option jsstring :=
  let dirName := path.dirname originalPath in
  let realExt := path.extname originalPath in
  let fileName := path.basename originalPath realExt in
  let prefix := if INCLUDE_ORIGINAL_NAME opts then fileName ++ lit " ↔ " else [] in
  let newName :=
    prefix ++ appName info ++ lit " –" ++ version info ++ minIOS info ++ fileExt in
  let safeNewName := replaceReserved newName in
  let newPath := path.join dirName safeNewName in
  if bool_decide (newPath = originalPath) then None else Some newPath.

(** ** The manifest decoder *)

(** The top-level value a property-list parser returns. *)
Inductive Parsed : Type :=
| PDict (data : gmap string JsVal)   (* a dictionary *)
| PNullish                           (* [null] or [undefined] *)
| POther.                            (* a string, number, array, ... *)

(** The two parsers, [bplist.parseBuffer] of [bplist-parser] and
    [plist.parse] of [plist]; [None] when the parser throws. *)
Class PlistParsers : Type := {
  bplist_parseBuffer : Buffer -> option (list Parsed);
  plist_parse : jsstring -> option Parsed
}.

Inductive Format : Type := Binary | Textual.

(** [buffer.slice(0, 6).toString() === 'bplist'] *)
Definition sniff (buffer : Buffer) : Format :=
  if bool_decide (toString (take 6 buffer) = lit "bplist") then Binary
  else Textual.

(** The [try] block of [#extractInfoFromIPA]; [None] is its [catch].
    Element 0 of an empty array is [undefined]. *)
Definition parseManifest `{parsers : PlistParsers} (buffer : Buffer) : option Parsed :=
  match sniff buffer with
  | Binary => arr ← bplist_parseBuffer buffer; Some (default PNullish (head arr))
  | Textual => plist_parse (toString buffer)
  end.

(** Lines 160-165 on the parsed value: reading a property of [null] or
    [undefined] raises, and a value that is not a dictionary has none of the
    keys. *)
Definition infoOfParsed (d : Parsed) : Result AppInfo :=
  match d with
  | PDict data => extractAppInfo data
  | PNullish => Throw
  | POther => extractAppInfo ∅
  end.

(** ** Archives and the file system *)

(** What reading an entry comes to: [openReadStream] calls back with an
    error; or the stream opens and emits [error], as on deflate data that
    are corrupt; or the stream ends, having delivered the bytes. *)
Inductive ReadStream : Type :=
| NotOpened
| Broken
| Data (buffer : Buffer).

Record Entry : Type := mkEntry {
  fileName : jsstring;
  content : ReadStream
}.

(** What [yauzl.open] finds at a path: something it cannot open; an
    archive with its entries in the order of the central directory, after
    which [readEntry] emits [end]; or an archive with a record that yauzl
    rejects, so that after the entries before it [readEntry] emits
    [error]. *)
Inductive FileContent : Type :=
| Unreadable
| Zip (entries : list Entry)
| ZipBroken (entries : list Entry).

(** The manifest locator: [readEntry] is called again as long as the name
    of the entry does not match, and not after the first match. *)
Definition locateManifest (entries : list Entry) : option Entry :=
  List.find (fun e => isManifestName (fileName e)) entries.

(** The locator with the pattern of the specification. *)
Definition spec_locateManifest (entries : list Entry) : option Entry :=
  List.find (fun e => spec_isManifestName (fileName e)) entries.

(** The callback of [openReadStream] for the entry that matches.  The
    program listens to [data] and [end] of the stream and not to [error]:
    an [error] event without a listener is thrown, outside every [try] and
    every promise, and ends the process. *)
Definition readManifest `{parsers : PlistParsers} (entry : Entry)
    : Result (option AppInfo) :=
  match content entry with
  | NotOpened => Ok None
  | Broken => Throw
  | Data buffer =>
      match parseManifest buffer with
      | None => Ok None
      | Some data => info ← infoOfParsed data; mret (Some info)
      end
  end.

(** [#extractInfoFromIPA]: [Ok None] is [resolve(null)], and [Throw] an
    exception that nothing catches: one raised in the [end] callback of
    the stream after the [try] block, or an [error] event of the archive
    or of the stream, for which the program registers no listener.  With
    [lazyEntries] no entry is read after the one that matches. *)
Definition extractInfoFromIPA `{parsers : PlistParsers} (fs : gmap jsstring FileContent)
    (ipaPath : jsstring) : Result (option AppInfo) :=
  match fs !! ipaPath with
  | None | Some Unreadable => Ok None
  | Some (Zip entries) =>
      match locateManifest entries with
      | None => Ok None
      | Some entry => readManifest entry
      end
  | Some (ZipBroken entries) =>
      match locateManifest entries with
      | None => Throw
      | Some entry => readManifest entry
      end
  end.

(** ** The loop over the files *)

Inductive LogKey : Type :=
| RENAMED
| MISSING_METADATA
| UNSUPPORTED_EXT
| ALREADY_RENAMED
| ERROR_RENAMING.

Record State : Type := mkState {
  renamedFilesLength : nat;
  skippedFilesLength : nat;
  files : gmap jsstring FileContent;
  (* the lines logged so far, the latest first: the key and the text *)
  logs : list (LogKey * jsstring)
}.

(** What the program does not decide: the directory of the script,
    [__dirname], and the calls that the operating system refuses.
    [rename_fails fs oldPath newPath] says that [fs.rename] fails on the
    files [fs] although there is a file at the old path: the new name is
    too long, a permission is missing, a directory is at the new path.
    [delete_fails targetPath p] says that the file at [p] is still there
    after [#deletePathRecursive(targetPath)]: a call of [stat], [readdir],
    [unlink] or [rm] on the way to it failed. *)
Class Environment : Type := {
  rootPath : jsstring;
  rename_fails : gmap jsstring FileContent -> jsstring -> jsstring -> bool;
  delete_fails : jsstring -> jsstring -> bool
}.

(** [fs.rename]: the file moves to the new path, replacing what is there;
    the call fails when there is no file at the old path and when the
    operating system refuses it, and then changes nothing. *)
Definition fsRename `{env : Environment} (fs : gmap jsstring FileContent)
    (oldPath newPath : jsstring) : option (gmap jsstring FileContent) :=
  f ← fs !! oldPath;
  if rename_fails fs oldPath newPath then None
  else Some (<[newPath := f]> (delete oldPath fs)).

Definition skip (key : LogKey) (filePath : jsstring) (st : State) : State :=
  mkState (renamedFilesLength st) (S (skippedFilesLength st)) (files st)
          ((key, filePath) :: logs st).

(** [#safeRenameFile] *)
Definition safeRenameFile `{env : Environment} (st : State)
    (filePath newFilePath : jsstring) : State :=
  match fsRename (files st) filePath newFilePath with
  | Some fs' =>
      let fromTo := filePath ++ lit " → " ++ path.basename newFilePath [] in
      mkState (S (renamedFilesLength st)) (skippedFilesLength st) fs'
              ((RENAMED, fromTo) :: logs st)
  | None => skip ERROR_RENAMING filePath st
  end.

(** [#isFileSupported] *)
Definition isFileSupported (opts : Settings) (fileExt : jsstring) : bool :=
  bool_decide (fileExt ∈ SUPPORTED_EXTENSIONS opts).

(** The body of the loop of [#renameFiles] for one file. *)
Definition processFile `{parsers : PlistParsers} `{env : Environment}
    (opts : Settings) (st : State) (filePath : jsstring) : Result State :=
  let fileExt := toLowerCase (path.extname filePath) in
  if negb (isFileSupported opts fileExt) then
    Ok (skip UNSUPPORTED_EXT filePath st)
  else
    info ← extractInfoFromIPA (files st) filePath;
    match info with
    | None => Ok (skip MISSING_METADATA filePath st)
    | Some info =>
        match getNewFilePath opts info fileExt filePath with
        | None => Ok (skip ALREADY_RENAMED filePath st)
        | Some newFilePath => Ok (safeRenameFile st filePath newFilePath)
        end
    end.

(** The loop of [#renameFiles] over the files of the walk (lines 91 to
    118); an uncaught exception ends it. *)
Fixpoint renameFiles_loop `{parsers : PlistParsers} `{env : Environment}
    (opts : Settings) (allFiles : list jsstring) (st : State) : Result State :=
  match allFiles with
  | [] => Ok st
  | filePath :: rest =>
      st' ← processFile opts st filePath; renameFiles_loop opts rest st'
  end.

(** The path without the separators at its end. *)
Definition withoutTrailingSeps (p : jsstring) : jsstring :=
  reverse (path.dropWhile path.isSep (reverse p)).

(** [p] is the path [targetPath] or lies below the directory [targetPath]. *)
Definition inside (targetPath p : jsstring) : bool :=
  let t := withoutTrailingSeps targetPath in
  bool_decide (p = t) || startsWith p (t ++ lit "/").

(** [#deletePathRecursive]: the file at the path, or every file below the
    directory at the path, is removed.  A call that fails is caught, in
    the call for the entry it fails on, and nothing is logged: the files
    that the failed calls were to remove stay, and the others go. *)
Definition deletePathRecursive `{env : Environment} (targetPath : jsstring)
    (fs : gmap jsstring FileContent) : gmap jsstring FileContent :=
  filter (fun kv => inside targetPath kv.1 = true ->
                    delete_fails targetPath kv.1 = true)
         fs.

(** [#cleanup] *)
Definition cleanup `{env : Environment} (cfg : ScanSettings)
    (fs : gmap jsstring FileContent) : gmap jsstring FileContent :=
  foldl (fun fs entry => deletePathRecursive (path.join rootPath entry) fs)
        fs (DELETE_ON_COMPLETE cfg).

(** [#renameFiles], [allFiles] being the list that [#walkDir(rootPath)]
    returned at line 89: the loop over the files, then the cleanup, which
    counts and logs nothing.  The walk is [walkDir] below, and the lines it
    logs for the directories it cannot list are kept there. *)
Definition renameFiles `{parsers : PlistParsers} `{env : Environment}
    (opts : Settings) (cfg : ScanSettings) (allFiles : list jsstring) (st : State)
    : Result State :=
  st' ← renameFiles_loop opts allFiles st;
  mret (mkState (renamedFilesLength st') (skippedFilesLength st')
                (cleanup cfg (files st')) (logs st')).

(** Paths as the walk produces them from an absolute root: a separator
    before each name, and every name what a directory entry can be. *)
Definition properName (n : jsstring) : Prop :=
  n <> [] /\ ("/"%char ∉ n) /\ n <> lit "." /\ n <> lit "..".

Definition render (names : list jsstring) : jsstring :=
  concat (map (fun n => "/"%char :: n) names).

Definition walked (p : jsstring) : Prop :=
  exists dirs name, Forall properName (dirs ++ [name]) /\ p = render (dirs ++ [name]).

(** ** Notions of the specification *)

(** A byte below 128. *)
Definition isAscii (c : ascii) : Prop := (N_of_ascii c <= 127)%N.

#[global] Instance isAscii_dec c : Decision (isAscii c).
Proof. unfold isAscii. apply _. Defined.

(** The name the planner assembles, after the replacement. *)
Definition safeNewName (opts : Settings) (info : AppInfo)
    (fileExt originalPath : jsstring) : jsstring :=
  let fileName := path.basename originalPath (path.extname originalPath) in
  replaceReserved
    ((if INCLUDE_ORIGINAL_NAME opts then fileName ++ lit " ↔ " else [])
     ++ appName info ++ lit " –" ++ version info ++ minIOS info ++ fileExt).

(** The string under a key, when the key is there and holds a string. *)
Definition strField (data : gmap string JsVal) (k : string) : option jsstring :=
  match data !! k with
  | Some (JStr s) => Some s
  | _ => None
  end.

(** The first string of the list that is there and is not empty. *)
Fixpoint firstNonEmpty (vals : list (option jsstring)) : option jsstring :=
  match vals with
  | [] => None
  | Some ((_ :: _) as s) :: _ => Some s
  | _ :: vals' => firstNonEmpty vals'
  end.

(** The keys the extractor reads, in its order. *)
Definition nameKeys : list string :=
  ["CFBundleDisplayName"; "CFBundleName"; "BundleDisplayName";
   "UILocalizedDisplayName"].

Definition versionKeys : list string :=
  ["CFBundleShortVersionString"; "CFBundleVersion"].

(** The metadata as the specification words them: the value of the
    minimum-OS-version key, and [0.0.0] when the key is absent. *)
Definition spec_AppMetadata (data : gmap string JsVal) : AppInfo :=
  {| appName :=
       match firstNonEmpty (strField data <$> nameKeys) with
       | Some v => replaceReserved v
       | None => lit "UnknownName"
       end;
     version :=
       match firstNonEmpty (strField data <$> versionKeys) with
       | Some v => lit " [v" ++ v ++ lit "]"
       | None => []
       end;
     minIOS :=
       lit " [iOS "
       ++ default (lit "0.0.0") (strField data "MinimumOSVersion")
       ++ lit "]" |}.

(** A name that ends with [Payload/<segment>.app/Info.plist], the segment
    non-empty and without a separator; anything may precede [Payload]. *)
Definition manifestShape (name : jsstring) : Prop :=
  exists pre seg,
    name = pre ++ lit "Payload/" ++ seg ++ lit ".app/Info.plist"
    /\ seg <> [] /\ ("/"%char ∉ seg).

#[global] Instance properName_dec n : Decision (properName n).
Proof. unfold properName. apply _. Defined.

(** The entry that the extraction reads in the archive at [p]: the first
    whose name matches, in an archive that is whole or has a rejected record
    after this entry. *)
Definition located (fs : gmap jsstring FileContent) (p : jsstring) (e : Entry)
    : Prop :=
  exists entries,
    (fs !! p = Some (Zip entries) \/ fs !! p = Some (ZipBroken entries))
    /\ locateManifest entries = Some e.

(** What can go wrong with one archive and is handled, by a call of
    [resolve(null)]: the archive cannot be opened, no entry matches the
    pattern, the stream of the entry cannot be opened, the parser throws. *)
Inductive archiveFailure `{parsers : PlistParsers}
    (fs : gmap jsstring FileContent) (p : jsstring) : Prop :=
| OpenErrorMissing : fs !! p = None -> archiveFailure fs p
| OpenErrorUnreadable : fs !! p = Some Unreadable -> archiveFailure fs p
| NoMatchingEntry entries :
    fs !! p = Some (Zip entries) -> locateManifest entries = None ->
    archiveFailure fs p
| EntryReadError e :
    located fs p e -> content e = NotOpened -> archiveFailure fs p
| DecodeError e buffer :
    located fs p e -> content e = Data buffer -> parseManifest buffer = None ->
    archiveFailure fs p.

(** What can go wrong with one archive and is not handled: yauzl rejects a
    record before an entry matches, the stream of the entry breaks after it
    is opened, the parser returns [null] or nothing. *)
Inductive unhandledFailure `{parsers : PlistParsers}
    (fs : gmap jsstring FileContent) (p : jsstring) : Prop :=
| RecordError entries :
    fs !! p = Some (ZipBroken entries) -> locateManifest entries = None ->
    unhandledFailure fs p
| StreamError e :
    located fs p e -> content e = Broken -> unhandledFailure fs p
| DecodedToNothing e buffer :
    located fs p e -> content e = Data buffer ->
    parseManifest buffer = Some PNullish -> unhandledFailure fs p.

(** ** Manifests, archives and parsers of the scenarios *)

(** The manifest of the end-to-end scenario. *)
Definition manifestMyApp : gmap string JsVal :=
  {[ "CFBundleDisplayName" := JStr (lit "My App");
     "CFBundleShortVersionString" := JStr (lit "2.1");
     "MinimumOSVersion" := JStr (lit "14.0") ]}.

Definition infoMyApp : AppInfo :=
  mkAppInfo (lit "My App") (lit " [v2.1]") (lit " [iOS 14.0]").

(** A manifest whose minimum-OS-version key holds the empty string. *)
Definition manifestEmptyMinimumOS : gmap string JsVal :=
  {[ "CFBundleName" := JStr (lit "Tool"); "MinimumOSVersion" := JStr [] ]}.

(** A manifest whose display name is the integer 42. *)
Definition manifestNumericName : gmap string JsVal :=
  {[ "CFBundleDisplayName" := JNum false (lit "42");
     "CFBundleShortVersionString" := JStr (lit "2.1") ]}.

(** A manifest whose name holds reserved characters. *)
Definition manifestReservedName : gmap string JsVal :=
  {[ "CFBundleDisplayName" := JStr (lit "A/B: C?");
     "CFBundleVersion" := JStr (lit "1|2") ]}.

(** An archive whose manifest lies below a further folder. *)
Definition nestedEntries : list Entry :=
  [ mkEntry (lit "Backup/Payload/X.app/Info.plist") (Data (lit "<plist/>")) ].

(** The parsers at work on one document: the textual manifest of the
    end-to-end scenario. *)
Definition plistMyApp : jsstring :=
  lit "<plist><dict>"
  ++ lit "<key>CFBundleDisplayName</key><string>My App</string>"
  ++ lit "<key>CFBundleShortVersionString</key><string>2.1</string>"
  ++ lit "<key>MinimumOSVersion</key><string>14.0</string>"
  ++ lit "</dict></plist>".

Definition parsersMyApp : PlistParsers := {|
  bplist_parseBuffer := fun _ => None;
  plist_parse := fun s =>
    if bool_decide (s = plistMyApp) then Some (PDict manifestMyApp) else None
|}.

Definition archiveMyApp : FileContent :=
  Zip [ mkEntry (lit "Payload/") NotOpened;
        mkEntry (lit "Payload/Game.app/Info.plist") (Data plistMyApp);
        mkEntry (lit "Payload/Game.app/Game") (Data (lit "binary")) ].

Definition startState (fs : gmap jsstring FileContent) : State :=
  mkState 0 0 fs [].

(** The script in the directory [/ipa], on a system that refuses no
    call. *)
Definition envIpa : Environment := {|
  rootPath := lit "/ipa";
  rename_fails := fun _ _ _ => false;
  delete_fails := fun _ _ => false
|}.

(** The archive of the scenario with deflate data of the manifest that are
    corrupt: the stream opens and emits [error]. *)
Definition archiveBrokenStream : FileContent :=
  Zip [ mkEntry (lit "Payload/") NotOpened;
        mkEntry (lit "Payload/Game.app/Info.plist") Broken;
        mkEntry (lit "Payload/Game.app/Game") (Data (lit "binary")) ].

Definition filesBrokenAndGame : gmap jsstring FileContent :=
  {[ lit "/ipa/broken.ipa" := archiveBrokenStream;
     lit "/ipa/game.ipa" := archiveMyApp ]}.

(** A flat archive, without a manifest, next to the archive of the
    scenario. *)
Definition filesFlatAndGame : gmap jsstring FileContent :=
  {[ lit "/ipa/flat.ipa" := Zip [ mkEntry (lit "readme.txt") (Data (lit "hello")) ];
     lit "/ipa/game.ipa" := archiveMyApp ]}.

(** ** The walk over the directories *)

(** What [readdir] with [withFileTypes] shows of a directory tree.  An
    entry is a regular file, a directory, or neither (a symbolic link, a
    socket); the listing of a directory is absent when [readdir] fails
    on it. *)
Inductive FsNode : Type :=
| NFile
| NOther
| NDir (listing : option (list (jsstring * FsNode))).

(** [entry.isDirectory()] and [entry.isFile()] *)
Definition isDirectory (node : FsNode) : bool :=
  match node with NDir _ => true | _ => false end.

Definition isFile (node : FsNode) : bool :=
  match node with NFile => true | _ => false end.

(** [list.some(ignored => ignored.toLowerCase() === entryName.toLowerCase())] *)
Definition someIgnored (ignoredList : list jsstring) (entryName : jsstring) : bool :=
  existsb
    (fun ignored => bool_decide (toLowerCase ignored = toLowerCase entryName))
    ignoredList.

(** [entryName.startsWith('.')] *)
Definition startsWithDot (entryName : jsstring) : bool :=
  match entryName with
  | c :: _ => bool_decide (c = "."%char)
  | [] => false
  end.

(** The array [fileList] that the calls of [#walkDir] share, and the
    directories for which ERROR_RD_DIR was logged, the latest first. *)
Record Walk : Type := mkWalk {
  fileList : list jsstring;
  unreadable : list jsstring
}.

(** [#walkDir(dir, fileList)], [node] being what is at [dir].  [readdir]
    fails on what is not a directory as on a directory it may not read. *)
Fixpoint walkDir (cfg : ScanSettings) (dir : jsstring) (node : FsNode)
    (w : Walk) : Walk :=
  match node with
  | NDir (Some entries) =>
      (fix loop (entries : list (jsstring * FsNode)) (w : Walk) : Walk :=
         match entries with
         | [] => w
         | (entryName, entry) :: rest =>
             let fullPath := path.join dir entryName in
             let isIgnoredDir :=
               isDirectory entry
               && (someIgnored (IGNORED_DIRECTORIES cfg) entryName
                   || startsWithDot entryName) in
             let isIgnoredFile :=
               isFile entry && someIgnored (IGNORED_FILES cfg) entryName in
             if isIgnoredDir || isIgnoredFile then loop rest w
             else if isDirectory entry then
               loop rest (walkDir cfg fullPath entry w)
             else
               loop rest (mkWalk (fileList w ++ [fullPath]) (unreadable w))
         end) entries w
  | _ => mkWalk (fileList w) (dir :: unreadable w)
  end.

(** The loop of [#walkDir] over the entries of [dir]. *)
Definition walkEntries (cfg : ScanSettings) (dir : jsstring)
    (entries : list (jsstring * FsNode)) (w : Walk) : Walk :=
  walkDir cfg dir (NDir (Some entries)) w.

(** The root of the walk, [__dirname]: an absolute, normalized path. *)
Definition rootOf (dirs : list jsstring) : jsstring :=
  match dirs with
  | [] => lit "/"
  | _ => render dirs
  end.

(** The node that the names [segs] lead to, below [node]. *)
Inductive nodeAt : FsNode -> list jsstring -> FsNode -> Prop :=
| nodeAt_here node : nodeAt node [] node
| nodeAt_below entries name child segs node :
    (name, child) ∈ entries -> nodeAt child segs node ->
    nodeAt (NDir (Some entries)) (name :: segs) node.

(** A tree whose names are what [readdir] returns: proper names, and no
    name twice in a directory. *)
Inductive properTree : FsNode -> Prop :=
| properTree_file : properTree NFile
| properTree_other : properTree NOther
| properTree_unreadable : properTree (NDir None)
| properTree_dir entries :
    Forall (fun e => properName e.1 /\ properTree e.2) entries ->
    NoDup (fst <$> entries) ->
    properTree (NDir (Some entries)).

(** A name of ASCII characters, and a tree and settings with such names:
    on them [toLowerCase] is the function of JavaScript. *)
Definition asciiString (s : jsstring) : Prop := Forall isAscii s.

Inductive asciiTree : FsNode -> Prop :=
| asciiTree_file : asciiTree NFile
| asciiTree_other : asciiTree NOther
| asciiTree_unreadable : asciiTree (NDir None)
| asciiTree_dir entries :
    Forall (fun e => asciiString e.1 /\ asciiTree e.2) entries ->
    asciiTree (NDir (Some entries)).

Definition asciiSettings (cfg : ScanSettings) : Prop :=
  Forall asciiString (IGNORED_DIRECTORIES cfg)
  /\ Forall asciiString (IGNORED_FILES cfg).

(** A directory name that the walk does not enter. *)
Definition ignoredDirName (cfg : ScanSettings) (name : jsstring) : bool :=
  someIgnored (IGNORED_DIRECTORIES cfg) name || startsWithDot name.

(** The files the walk is to list below [node]: [segs] leads through
    directories that are not ignored to [name], which is no directory and,
    if it is a regular file, has no ignored name. *)
Definition toList (cfg : ScanSettings) (node : FsNode)
    (segs : list jsstring) (name : jsstring) : Prop :=
  exists entry,
    nodeAt node (segs ++ [name]) entry
    /\ isDirectory entry = false
    /\ Forall (fun s => ignoredDirName cfg s = false) segs
    /\ (isFile entry = true -> someIgnored (IGNORED_FILES cfg) name = false).
(** The paths of the files to list, relative to the directory walked, in
    the order of the listings. *)
Fixpoint relFiles (cfg : ScanSettings) (node : FsNode) : list (list jsstring) :=
  match node with
  | NDir (Some entries) =>
      (fix go (entries : list (jsstring * FsNode)) : list (list jsstring) :=
         match entries with
         | [] => []
         | (entryName, entry) :: rest =>
             (if isDirectory entry && ignoredDirName cfg entryName
                 || isFile entry && someIgnored (IGNORED_FILES cfg) entryName
              then []
              else if isDirectory entry then cons entryName <$> relFiles cfg entry
              else [[entryName]])
             ++ go rest
         end) entries
  | _ => []
  end.

(** The directories for which the walk is to log an error, relative to the
    directory walked: what is not a directory that can be listed. *)
Fixpoint relUnreadable (cfg : ScanSettings) (node : FsNode) : list (list jsstring) :=
  match node with
  | NDir (Some entries) =>
      (fix go (entries : list (jsstring * FsNode)) : list (list jsstring) :=
         match entries with
         | [] => []
         | (entryName, entry) :: rest =>
             go rest
             ++ (if isDirectory entry && negb (ignoredDirName cfg entryName)
                 then cons entryName <$> relUnreadable cfg entry
                 else [])
         end) entries
  | _ => [[]]
  end.

(** The directories the walk cannot list below [node]: [segs] leads
    through directories that are not ignored to a directory without a
    listing. *)
Definition toReport (cfg : ScanSettings) (node : FsNode)
    (segs : list jsstring) : Prop :=
  nodeAt node segs (NDir None)
  /\ Forall (fun s => ignoredDirName cfg s = false) segs.

(** A small tree: archives, ignored names, a directory that cannot be
    listed, a link. *)
Definition sampleTree : FsNode :=
  NDir (Some
    [ (lit "game.ipa", NFile);
      (lit "Node_Modules", NDir (Some [ (lit "inner.ipa", NFile) ]));
      (lit ".cache", NDir (Some [ (lit "old.ipa", NFile) ]));
      (lit "apps", NDir (Some [ (lit "a.IPA", NFile);
                                (lit "Package.json", NFile);
                                (lit "locked", NDir None) ]));
      (lit "package.json", NOther) ]).

(** ** Notions for the loop *)

(** Settings whose supported extensions are not empty and hold no reserved
    character, as [.ipa]. *)
Definition cleanExtensions (opts : Settings) : Prop :=
  Forall (fun e => e <> [] /\ replaceReserved e = e) (SUPPORTED_EXTENSIONS opts).

(** Two archives with the metadata of the scenario, in one directory. *)
Definition filesTwoGames : gmap jsstring FileContent :=
  {[ lit "/ipa/one.ipa" := archiveMyApp;
     lit "/ipa/two.ipa" :=
       Zip [ mkEntry (lit "Payload/Two.app/Info.plist") (Data plistMyApp) ] ]}.

(** INCLUDE_ORIGINAL_NAME turned off. *)
Definition settingsWithoutOriginalName : Settings :=
  mkSettings false [lit ".ipa"].

(** The archive of the scenario beside what [npm install] leaves. *)
Definition filesWithPackages : gmap jsstring FileContent :=
  {[ lit "/ipa/game.ipa" := archiveMyApp;
     lit "/ipa/package.json" := Unreadable;
     lit "/ipa/package-lock.json" := Unreadable;
     lit "/ipa/node_modules/yauzl/index.js" := Unreadable;
     lit "/ipa/node_modules/yauzl/package.json" := Unreadable;
     lit "/ipa/apps/package.json" := Unreadable;
     lit "/ipa/node_modules.txt" := Unreadable ]}.

(** ** Notions for the extractor *)

(** [v1 || ... || vn || last]: the first truthy value, and [last] when
    there is none. *)
Fixpoint firstTruthy (vals : list JsVal) (last : JsVal) : JsVal :=
  match vals with
  | [] => last
  | v :: vals' => if truthy v then v else firstTruthy vals' last
  end.

(** A value that has no [replace] and is not skipped by [?.]: a boolean, a
    number, an object. *)
Definition hasNoReplace (v : JsVal) : Prop :=
  match v with
  | JBool _ | JNum _ _ | JObj _ => True
  | JUndefined | JNull | JStr _ => False
  end.

(** A value that counts as empty or absent: [undefined], [null], the empty
    string, and what else JavaScript takes for false: zero, NaN and
    [false]. *)
Definition emptyValue (v : JsVal) : bool :=
  match v with
  | JUndefined | JNull | JBool false | JNum true _ | JStr [] => true
  | JBool true | JNum false _ | JStr (_ :: _) | JObj _ => false
  end.

(** The first value of the list that is not empty. *)
Fixpoint firstNonEmptyValue (vals : list JsVal) : option JsVal :=
  match vals with
  | [] => None
  | v :: vals' => if emptyValue v then firstNonEmptyValue vals' else Some v
  end.

(** The text of a value: the string itself, the rendering of a number or
    of an object that has one. *)
Definition textOf (v : JsVal) : jsstring :=
  match v with
  | JStr s => s
  | JNum _ shown => shown
  | JObj (Some shown) => shown
  | JBool true => lit "true"
  | JBool false => lit "false"
  | JUndefined => lit "undefined"
  | JNull => lit "null"
  | JObj None => []
  end.

(** The metadata as the amended claim words them: a value counts as
    present when it is not empty, a value that is no string enters by its
    text, and the minimum OS version is 0.0.0 when the key is absent or
    its value empty. *)
Definition amended_AppMetadata (data : gmap string JsVal) : AppInfo :=
  {| appName :=
       match firstNonEmptyValue (prop data <$> nameKeys) with
       | Some v => replaceReserved (textOf v)
       | None => lit "UnknownName"
       end;
     version :=
       match firstNonEmptyValue (prop data <$> versionKeys) with
       | Some v => lit " [v" ++ textOf v ++ lit "]"
       | None => []
       end;
     minIOS :=
       lit " [iOS "
       ++ match firstNonEmptyValue [prop data "MinimumOSVersion"] with
          | Some v => textOf v
          | None => lit "0.0.0"
          end
       ++ lit "]" |}.

Definition stringOrAbsent (v : JsVal) : Prop :=
  match v with
  | JStr _ | JUndefined | JNull => True
  | JBool _ | JNum _ _ | JObj _ => False
  end.

(** A value that a template literal can convert: every value but an
    object whose conversion raises. *)
Definition hasText (v : JsVal) : Prop := v <> JObj None.

(** The manifests on which the extractor does not raise: the name value
    it selects, which is the first of the four that is not empty and the
    last of them when all are empty, is a string or absent; the version
    value it selects and the value of MinimumOSVersion have a text. *)
Definition extractable (data : gmap string JsVal) : Prop :=
  stringOrAbsent
    (firstTruthy [prop data "CFBundleDisplayName"; prop data "CFBundleName";
                  prop data "BundleDisplayName"]
       (prop data "UILocalizedDisplayName"))
  /\ hasText (firstTruthy [prop data "CFBundleShortVersionString";
                           prop data "CFBundleVersion"] JNull)
  /\ hasText (prop data "MinimumOSVersion").

(** A manifest whose version and minimum OS version are numbers. *)
Definition manifestNumericVersion : gmap string JsVal :=
  {[ "CFBundleName" := JStr (lit "Tool");
     "CFBundleVersion" := JNum false (lit "42");
     "MinimumOSVersion" := JNum false (lit "14") ]}.

(** ** Localization *)

Inductive Language : Type := ru | en.

(** [L10n.Language]: the locale of the process, [en] when there is none,
    is looked at for the prefix [ru]. *)
Definition languageOf (locale : option jsstring) : Language :=
  if startsWith (orString locale (lit "en")) (lit "ru") then ru else en.

(** [L10n.Translations]: for each value of [L10n.Keys], the text in Russian
    and the text in English. *)
Definition Translations : gmap jsstring (jsstring * jsstring) :=
  list_to_map
    [ (lit "renamed", (lit "Переименовано", lit "Renamed"));
      (lit "skipped", (lit "Пропущено", lit "Skipped"));
      (lit "deleted", (lit "Удалено", lit "Deleted"));
      (lit "directory", (lit "Сканируемая папка", lit "Scanned directory"));
      (lit "missingMetadata",
        (lit "Не удалось извлечь метаданные", lit "Missing metadata"));
      (lit "unsupported",
        (lit "Неподдерживаемое расширение", lit "Unsupported extension"));
      (lit "alreadyRenamed", (lit "Уже переименовано", lit "Already renamed"));
      (lit "errorRenaming", (lit "Ошибка при переименовании", lit "Error renaming"));
      (lit "errorDelete", (lit "Ошибка удаления", lit "Error deleting"));
      (lit "errorRdFolder", (lit "Ошибка чтения папки", lit "Read directory error"));
      (lit "operationTime", (lit "Время выполнения", lit "Execution time")) ].

(** The values of [L10n.Keys]. *)
Definition L10nKeys : list jsstring :=
  [lit "renamed"; lit "skipped"; lit "deleted"; lit "directory";
   lit "missingMetadata"; lit "unsupported"; lit "alreadyRenamed";
   lit "errorRenaming"; lit "errorDelete"; lit "errorRdFolder";
   lit "operationTime"].

(** [L10n.get(key)]: [L10n.Translations[key]?.[L10n.Language] || key] *)
Definition L10n_get (language : Language) (key : jsstring) : jsstring :=
  orString
    (tr ← Translations !! key;
     Some match language with ru => tr.1 | en => tr.2 end)
    key.

(** The value of [L10n.Keys] for a key of the loop. *)
Definition keyName (key : LogKey) : jsstring :=
  match key with
  | RENAMED => lit "renamed"
  | MISSING_METADATA => lit "missingMetadata"
  | UNSUPPORTED_EXT => lit "unsupported"
  | ALREADY_RENAMED => lit "alreadyRenamed"
  | ERROR_RENAMING => lit "errorRenaming"
  end.

(** ** The logger *)

(** The escape character, 27, and the line feed, 10. *)
Definition esc : ascii := Eval cbv in ascii_of_N 27.
Definition newline : ascii := Eval cbv in ascii_of_N 10.

(** The class [[0-9;]]. *)
Definition digitOrSemicolon : regex :=
  foldr (fun c r => Alt (Chr c) r) Void (lit "0123456789;").

(** The pattern of [saveToLogs], [/^\x1B\[[0-9;]*m%s\x1B\[0m$/]. *)
Definition colourPattern : regex :=
  Cat (Lit [esc; "["%char])
      (Cat (Star digitOrSemicolon)
           (Lit (lit "m%s" ++ [esc] ++ lit "[0m"))).

(** An argument of [log]: a string, or another value with its conversion
    to a string. *)
Inductive LogArg : Type :=
| ArgString (s : jsstring)
| ArgOther (shown : jsstring).

(** [LoggerUtils.saveToLogs(...args)], on the text [#logText]. *)
Definition saveToLogs (args : list LogArg) (logText : jsstring) : jsstring :=
  fold_left
    (fun logText arg =>
       match arg with
       | ArgString s =>
           if negb (testWhole colourPattern s) then logText ++ s ++ [newline]
           else logText
       | ArgOther shown => logText ++ shown ++ [newline]
       end)
    args logText.

(** [LoggerUtils.log(...args)], as far as [#logText] goes. *)
Definition log (args : list LogArg) (logText : jsstring) : jsstring :=
  saveToLogs args logText.

(** The format of a colour, [\x1b[<code>m%s\x1b[0m]. *)
Definition colourFormat (code : jsstring) : jsstring :=
  [esc; "["%char] ++ code ++ lit "m%s" ++ [esc] ++ lit "[0m".

(** [LoggerUtils.cyan(message)] and the other four. *)
Definition cyan (message : LogArg) (logText : jsstring) : jsstring :=
  log [ArgString (colourFormat (lit "96")); message] logText.
Definition green (message : LogArg) (logText : jsstring) : jsstring :=
  log [ArgString (colourFormat (lit "92")); message] logText.
Definition yellow (message : LogArg) (logText : jsstring) : jsstring :=
  log [ArgString (colourFormat (lit "93")); message] logText.
Definition red (message : LogArg) (logText : jsstring) : jsstring :=
  log [ArgString (colourFormat (lit "91")); message] logText.
Definition magenta (message : LogArg) (logText : jsstring) : jsstring :=
  log [ArgString (colourFormat (lit "95")); message] logText.

(** [LoggerUtils.indent(symbol)]: [symbol ? symbol.repeat(100) : ''] *)
Definition indent (symbol : option jsstring) (logText : jsstring) : jsstring :=
  log [ArgString match symbol with
                 | Some ((_ :: _) as s) => concat (replicate 100 s)
                 | _ => []
                 end] logText.

(** [#logSuccess], [#logWarning] and [#logError]; [errMessage] is
    [err?.message]. *)
Definition logSuccess (language : Language) (key filePath : jsstring)
    (logText : jsstring) : jsstring :=
  green (ArgString (lit "✅ " ++ L10n_get language key ++ lit ": " ++ filePath))
        logText.

Definition logWarning (language : Language) (key filePath icon : jsstring)
    (logText : jsstring) : jsstring :=
  yellow (ArgString (icon ++ lit " " ++ L10n_get language key ++ lit ": " ++ filePath))
         logText.

Definition logError (language : Language) (key filePath : jsstring)
    (errMessage : option jsstring) (logText : jsstring) : jsstring :=
  let message :=
    match errMessage with
    | Some ((_ :: _) as m) => lit ":" ++ [newline] ++ m
    | _ => []
    end in
  red (ArgString (lit "⛔ " ++ L10n_get language key ++ lit ": " ++ filePath ++ message))
      logText.

(** ** The time of the run *)

(** [String(n)] for an integer: its decimal digits, after a minus sign
    when it is negative. *)
Fixpoint showUint (d : Decimal.uint) : jsstring :=
  match d with
  | Decimal.Nil => []
  | Decimal.D0 d => "0"%char :: showUint d
  | Decimal.D1 d => "1"%char :: showUint d
  | Decimal.D2 d => "2"%char :: showUint d
  | Decimal.D3 d => "3"%char :: showUint d
  | Decimal.D4 d => "4"%char :: showUint d
  | Decimal.D5 d => "5"%char :: showUint d
  | Decimal.D6 d => "6"%char :: showUint d
  | Decimal.D7 d => "7"%char :: showUint d
  | Decimal.D8 d => "8"%char :: showUint d
  | Decimal.D9 d => "9"%char :: showUint d
  end.

Definition String_ofZ (n : Z) : jsstring :=
  match Z.to_int n with
  | Decimal.Pos d => showUint d
  | Decimal.Neg d => "-"%char :: showUint d
  end.

(** [s.padStart(len, '0')] *)
Definition padStart (len : nat) (s : jsstring) : jsstring :=
  replicate (len - length s) "0"%char ++ s.

(** [PerformanceWrapper.#formatPerformance(ms)] for a whole number of
    milliseconds: [Math.floor] of a quotient rounds down, [%] takes the
    sign of the dividend. *)
Definition formatPerformance (ms : Z) : jsstring :=
  let hours := (ms / 3600000)%Z in
  let ms := Z.rem ms 3600000 in
  let minutes := (ms / 60000)%Z in
  let ms := Z.rem ms 60000 in
  let seconds := (ms / 1000)%Z in
  let milliseconds := Z.rem ms 1000 in
  let pad := fun n => padStart 2 (String_ofZ n) in
  let padMs := fun n => padStart 3 (String_ofZ n) in
  if negb (hours =? 0)%Z then
    pad hours ++ lit "." ++ pad minutes ++ lit "." ++ pad seconds ++ lit ":"
    ++ padMs milliseconds ++ lit " (h.m.s:ms)"
  else if negb (minutes =? 0)%Z then
    pad minutes ++ lit "." ++ pad seconds ++ lit ":" ++ padMs milliseconds
    ++ lit " (m.s:ms)"
  else if negb (seconds =? 0)%Z then
    String_ofZ seconds ++ lit ":" ++ padMs milliseconds ++ lit " (s:ms)"
  else
    String_ofZ milliseconds ++ lit " (ms)".

(** The number that a string of digits writes. *)
Fixpoint uintOf (s : jsstring) : option Decimal.uint :=
  match s with
  | [] => Some Decimal.Nil
  | c :: s' => DecimalString.uint_of_char c (uintOf s')
  end.

Definition valueOf (s : jsstring) : option Z := Z.of_uint <$> uintOf s.

(** A decimal digit. *)
Definition isDigit (c : ascii) : Prop := c ∈ lit "0123456789".

(** Induction over a tree and the listings in it. *)
Fixpoint FsNode_nested_ind (P : FsNode -> Prop)
    (Hfile : P NFile) (Hother : P NOther) (Hnone : P (NDir None))
    (Hdir : forall entries, Forall (fun e => P e.2) entries ->
                            P (NDir (Some entries)))
    (node : FsNode) : P node :=
  match node with
  | NFile => Hfile
  | NOther => Hother
  | NDir None => Hnone
  | NDir (Some entries) =>
      Hdir entries
        ((fix all (entries : list (jsstring * FsNode)) :
            Forall (fun e => P e.2) entries :=
            match entries with
            | [] => Forall_nil_2 _
            | e :: rest =>
                Forall_cons_2 _ _ _
                  (FsNode_nested_ind P Hfile Hother Hnone Hdir e.2) (all rest)
            end) entries)
  end.

(** * Properties *)

(** ** Strings *)

Lemma isReserved_spec c : isReserved c = true <-> c ∈ reservedChars.
Proof. unfold isReserved. apply bool_decide_eq_true. Qed.

Lemma replaceReserved_app s t :
  replaceReserved (s ++ t) = replaceReserved s ++ replaceReserved t.
Proof. apply map_app. Qed.

Lemma replaceReserved_length s : length (replaceReserved s) = length s.
Proof. apply length_map. Qed.

Lemma replaceReserved_clean s c : c ∈ reservedChars -> c ∉ replaceReserved s.
Proof.
  intros Hc Hin. unfold replaceReserved in Hin.
  apply list_elem_of_fmap in Hin as (a & -> & _).
  destruct (isReserved a) eqn:Ha.
  - apply isReserved_spec in Hc. discriminate Hc.
  - apply isReserved_spec in Hc. congruence.
Qed.

Lemma replaceReserved_id s :
  (forall c, c ∈ s -> isReserved c = false) -> replaceReserved s = s.
Proof.
  induction s as [|a s IH]; intros H; [done|]. cbn.
  rewrite (H a) by left. f_equal. apply IH. intros c Hc. apply H. by right.
Qed.

(** ** Regular expressions *)

Lemma nullable_matches r : nullable r = true <-> matches r [].
Proof.
  split.
  - induction r; cbn; intros Hn; try discriminate.
    + constructor.
    + apply andb_true_iff in Hn as [H1 H2].
      change (@nil ascii) with (@nil ascii ++ []). constructor; auto.
    + apply orb_true_iff in Hn as [H|H]; [apply MAltL|apply MAltR]; auto.
    + constructor.
  - intros Hm. remember [] as s eqn:Hs.
    induction Hm; cbn; try discriminate; auto.
    + apply app_eq_nil in Hs as [-> ->]. rewrite IHHm1, IHHm2; auto.
    + rewrite IHHm; auto.
    + rewrite IHHm; auto. apply orb_true_r.
Qed.

Lemma matches_star_cons r a s :
  matches (Star r) (a :: s) ->
  exists s1 s2, s = s1 ++ s2 /\ matches r (a :: s1) /\ matches (Star r) s2.
Proof.
  intros Hm. remember (Star r) as r' eqn:Hr. remember (a :: s) as t eqn:Ht.
  revert s Ht. induction Hm; intros s0 Ht; try discriminate.
  injection Hr as ->.
  destruct s1 as [|b s1]; cbn in Ht.
  - apply IHHm2; auto.
  - injection Ht as -> <-. eauto.
Qed.

Lemma matches_Cat_inv r1 r2 s :
  matches (Cat r1 r2) s ->
  exists s1 s2, s = s1 ++ s2 /\ matches r1 s1 /\ matches r2 s2.
Proof. inversion 1; subst; eauto. Qed.

Lemma matches_Alt_inv r1 r2 s :
  matches (Alt r1 r2) s -> matches r1 s \/ matches r2 s.
Proof. inversion 1; subst; eauto. Qed.

Lemma matches_Cat_cons r1 r2 a s1 s2 :
  matches r1 (a :: s1) -> matches r2 s2 -> matches (Cat r1 r2) (a :: s1 ++ s2).
Proof. intros H1 H2. change (a :: s1 ++ s2) with ((a :: s1) ++ s2). by constructor. Qed.

Lemma deriv_matches a r s : matches (deriv a r) s <-> matches r (a :: s).
Proof.
  revert s. induction r; intros s; cbn.
  - split; inversion 1.
  - split; inversion 1.
  - case_bool_decide as Hc; split; intros Hm; inversion Hm; subst;
      try constructor; congruence.
  - case_bool_decide as Hc; split; intros Hm; inversion Hm; subst;
      try (by constructor); congruence.
  - destruct (nullable r1) eqn:Hn.
    + split.
      * intros Hm. apply matches_Alt_inv in Hm as [Hm|Hm].
        -- apply matches_Cat_inv in Hm as (s1 & s2 & -> & H1 & H2).
           apply matches_Cat_cons; [by apply IHr1|done].
        -- apply IHr2 in Hm. change (a :: s) with ([] ++ a :: s).
           constructor; [by apply nullable_matches|done].
      * intros Hm. apply matches_Cat_inv in Hm as (s1 & s2 & Hs & H1 & H2).
        destruct s1 as [|b s1]; cbn in Hs.
        -- subst. apply MAltR. by apply IHr2.
        -- injection Hs as <- ->. apply MAltL. constructor; [by apply IHr1|done].
    + split.
      * intros Hm. apply matches_Cat_inv in Hm as (s1 & s2 & -> & H1 & H2).
        apply matches_Cat_cons; [by apply IHr1|done].
      * intros Hm. apply matches_Cat_inv in Hm as (s1 & s2 & Hs & H1 & H2).
        destruct s1 as [|b s1]; cbn in Hs.
        -- apply nullable_matches in H1. congruence.
        -- injection Hs as <- ->. constructor; [by apply IHr1|done].
  - split; intros Hm; apply matches_Alt_inv in Hm as [Hm|Hm];
      first [ apply MAltL; by apply IHr1 | apply MAltR; by apply IHr2 ].
  - split.
    + intros Hm. apply matches_Cat_inv in Hm as (s1 & s2 & -> & H1 & H2).
      apply IHr in H1. change (a :: s1 ++ s2) with ((a :: s1) ++ s2).
      by constructor.
    + intros Hm. apply matches_star_cons in Hm as (s1 & s2 & -> & H1 & H2).
      constructor; [by apply IHr|done].
Qed.

Lemma accepts_matches r s : accepts r s = true <-> matches r s.
Proof.
  revert r. induction s as [|a s IH]; intros r; cbn.
  - apply nullable_matches.
  - rewrite IH. apply deriv_matches.
Qed.

Lemma testToEnd_spec r s :
  testToEnd r s = true <-> exists pre t, s = pre ++ t /\ matches r t.
Proof.
  induction s as [|a s IH]; cbn.
  - rewrite orb_false_r, nullable_matches. split.
    + intros Hm. by exists [], [].
    + intros (pre & t & Hs & Hm). symmetry in Hs.
      apply app_eq_nil in Hs as [-> ->]. done.
  - rewrite orb_true_iff, IH. change (accepts (deriv a r) s) with (accepts r (a :: s)).
    rewrite accepts_matches. split.
    + intros [Hm|(pre & t & -> & Hm)].
      * by exists [], (a :: s).
      * by exists (a :: pre), t.
    + intros (pre & t & Hs & Hm). destruct pre as [|b pre]; cbn in Hs.
      * subst. by left.
      * injection Hs as -> ->. right. eauto.
Qed.

Lemma matches_Lit l s : matches (Lit l) s <-> s = l.
Proof.
  revert s. induction l as [|c l IH]; intros s; cbn.
  - split; [inversion 1; done | intros ->; constructor].
  - split.
    + intros Hm. apply matches_Cat_inv in Hm as (s1 & s2 & -> & H1 & H2).
      inversion H1; subst. apply IH in H2 as ->. done.
    + intros ->. change (c :: l) with ([c] ++ l).
      constructor; [constructor | by apply IH].
Qed.

Lemma matches_star_NotChr c s : matches (Star (NotChr c)) s <-> c ∉ s.
Proof.
  split.
  - intros Hm. remember (Star (NotChr c)) as r eqn:Hr.
    induction Hm; try discriminate.
    + apply not_elem_of_nil.
    + injection Hr as ->. inversion Hm1; subst.
      apply not_elem_of_cons. split; [congruence | by apply IHHm2].
  - induction s as [|a s IH]; intros Hc.
    + constructor.
    + apply not_elem_of_cons in Hc as [Hne Hc].
      change (a :: s) with ([a] ++ s). constructor; [by constructor | by apply IH].
Qed.

Lemma matches_plus_NotChr c s :
  matches (Plus (NotChr c)) s <-> s <> [] /\ c ∉ s.
Proof.
  unfold Plus. split.
  - intros Hm. apply matches_Cat_inv in Hm as (s1 & s2 & -> & H1 & H2).
    inversion H1; subst. apply matches_star_NotChr in H2. split; [done|].
    apply not_elem_of_cons. split; [congruence | done].
  - intros [Hne Hc]. destruct s as [|a s]; [done|].
    apply not_elem_of_cons in Hc as [Ha Hc].
    change (a :: s) with ([a] ++ s).
    constructor; [by constructor | by apply matches_star_NotChr].
Qed.

(** What the names are that the pattern of the locator matches in full. *)
Lemma matches_manifestPattern t :
  matches manifestPattern t <->
  exists seg, t = lit "Payload/" ++ seg ++ lit ".app/Info.plist"
              /\ seg <> [] /\ "/"%char ∉ seg.
Proof.
  unfold manifestPattern. split.
  - intros Hm. apply matches_Cat_inv in Hm as (s1 & s2 & -> & H1 & H2).
    apply matches_Cat_inv in H2 as (s3 & s4 & -> & H3 & H4).
    apply matches_Lit in H1 as ->. apply matches_Lit in H4 as ->.
    apply matches_plus_NotChr in H3 as [? ?]. eauto.
  - intros (seg & -> & Hne & Hc).
    constructor; [by apply matches_Lit|].
    constructor; [by apply matches_plus_NotChr | by apply matches_Lit].
Qed.

Lemma isManifestName_spec name :
  isManifestName name = true <->
  exists pre seg, name = pre ++ lit "Payload/" ++ seg ++ lit ".app/Info.plist"
                  /\ seg <> [] /\ "/"%char ∉ seg.
Proof.
  unfold isManifestName. rewrite testToEnd_spec. split.
  - intros (pre & t & -> & Hm). apply matches_manifestPattern in Hm as (seg & -> & ? & ?).
    eauto.
  - intros (pre & seg & -> & ? & ?). eexists pre, _. split; [done|].
    apply matches_manifestPattern. eauto.
Qed.

Lemma spec_isManifestName_spec name :
  spec_isManifestName name = true <->
  exists seg, name = lit "Payload/" ++ seg ++ lit ".app/Info.plist"
              /\ seg <> [] /\ "/"%char ∉ seg.
Proof.
  unfold spec_isManifestName, testWhole. rewrite accepts_matches.
  apply matches_manifestPattern.
Qed.

(** ** Decoding a buffer *)

(** A well-formed sequence is kept, a truncated one becomes U+FFFD. *)
Example toString_arrow :
  toString (lit "a ↔ b") = lit "a ↔ b"
  /\ toString (take 3 (lit "a ↔ b")) = lit "a " ++ replacement.
Proof. split; reflexivity. Qed.

Lemma classify_lower b n lo hi : classify b = LMulti n lo hi -> (128 <= lo)%N.
Proof.
  unfold classify.
  repeat match goal with
         | |- context [if ?c then _ else _] => destruct c
         end; intros Hc; inversion Hc; subst; lia.
Qed.

Lemma classify_ascii b : classify b = LAscii -> isAscii b.
Proof.
  unfold classify, isAscii. destruct (N.leb_spec (N_of_ascii b) 127); [done|].
  repeat match goal with
         | |- context [if ?c then _ else _] => destruct c
         end; discriminate.
Qed.

Lemma replacement_not_ascii s : ~ Forall isAscii (replacement ++ s).
Proof. intros H. apply Forall_app in H as [H _]. inversion H as [|? ? Hb]. by vm_compute in Hb. Qed.

(** An output without a byte above 127 comes from the initial state and is
    the input itself. *)
Lemma utf8Decode_ascii input st :
  (forall p, st = Some p -> (128 <= lower p)%N) ->
  Forall isAscii (utf8Decode st input) ->
  st = None /\ utf8Decode st input = input.
Proof.
  revert st. induction input as [|b rest IH]; intros st Hst; cbn [utf8Decode].
  - destruct st; [|done]. intros H. by apply (replacement_not_ascii []) in H.
  - assert (Hstart :
      Forall isAscii
        match classify b with
        | LAscii => b :: utf8Decode None rest
        | LMulti n lo hi => utf8Decode (Some (mkPending [b] n lo hi)) rest
        | LInvalid => replacement ++ utf8Decode None rest
        end ->
      match classify b with
      | LAscii => b :: utf8Decode None rest
      | LMulti n lo hi => utf8Decode (Some (mkPending [b] n lo hi)) rest
      | LInvalid => replacement ++ utf8Decode None rest
      end = b :: rest).
    { destruct (classify b) eqn:Hc; intros H.
      - inversion H; subst. f_equal. by apply (IH None).
      - apply IH in H as [? _]; [done|]. intros p [= <-]. cbn.
        by apply classify_lower in Hc.
      - by apply replacement_not_ascii in H. }
    destruct st as [p|]; [|by split; [|apply Hstart]].
    specialize (Hst p eq_refl).
    destruct (_ && _) eqn:Hrange.
    + apply andb_true_iff in Hrange as [Hlo _]. apply N.leb_le in Hlo.
      destruct (need p) as [|[|n]]; intros H.
      * apply Forall_app in H as [_ H]. inversion H as [|? ? Hb]; subst.
        unfold isAscii in Hb. lia.
      * apply Forall_app in H as [_ H]. inversion H as [|? ? Hb]; subst.
        unfold isAscii in Hb. lia.
      * apply IH in H as [? _]; [done|]. intros q [= <-]. cbn. lia.
    + intros H. by apply replacement_not_ascii in H.
Qed.

Lemma toString_ascii buf : Forall isAscii (toString buf) -> toString buf = buf.
Proof. intros H. by apply utf8Decode_ascii in H as [_ ?]. Qed.

Lemma toString_of_ascii buf : Forall isAscii buf -> toString buf = buf.
Proof.
  unfold toString. induction 1 as [|b rest Hb _ IH]; [done|]. cbn.
  unfold classify. unfold isAscii in Hb. apply N.leb_le in Hb. rewrite Hb.
  by rewrite IH.
Qed.

Lemma sniff_Binary buffer : sniff buffer = Binary <-> take 6 buffer = lit "bplist".
Proof.
  unfold sniff. case_bool_decide as Hd; split; try done.
  - intros _. rewrite <- Hd. symmetry. apply toString_ascii. rewrite Hd.
    repeat constructor; by vm_compute.
  - intros Ht. destruct Hd. rewrite Ht. reflexivity.
Qed.

(** ** Paths *)

(** The examples of the Node.js documentation. *)
Example dirname_doc :
  path.dirname (lit "/foo/bar/baz/asdf/quux") = lit "/foo/bar/baz/asdf".
Proof. reflexivity. Qed.

Example basename_doc :
  path.basename (lit "/foo/bar/baz/asdf/quux.html") [] = lit "quux.html"
  /\ path.basename (lit "/foo/bar/baz/asdf/quux.html") (lit ".html") = lit "quux".
Proof. split; reflexivity. Qed.

Example extname_doc :
  path.extname <$> [lit "index.html"; lit "index.coffee.md"; lit "index.";
                    lit "index"; lit ".index"; lit ".index.md"]
  = [lit ".html"; lit ".md"; lit "."; []; []; lit ".md"].
Proof. reflexivity. Qed.

Example normalize_doc :
  path.normalize (lit "/foo/bar//baz/asdf/quux/..") = lit "/foo/bar/baz/asdf".
Proof. reflexivity. Qed.

Example join_doc :
  path.join (lit "/foo/bar") (lit "baz/asdf/quux/..") = lit "/foo/bar/baz/asdf".
Proof. reflexivity. Qed.

Lemma isSep_true c : path.isSep c = true <-> c = "/"%char.
Proof. unfold path.isSep. apply bool_decide_eq_true. Qed.

Lemma isSep_false c : path.isSep c = false <-> c <> "/"%char.
Proof. unfold path.isSep. apply bool_decide_eq_false. Qed.

Lemma split_not_nil s : path.split s <> [].
Proof.
  destruct s as [|c s]; cbn; [done|].
  destruct (path.isSep c); [done|]. by destruct (path.split s).
Qed.

Lemma split_nosep n : "/"%char ∉ n -> path.split n = [n].
Proof.
  induction n as [|c n IH]; intros Hn; [done|].
  apply not_elem_of_cons in Hn as [Hc Hn]. cbn.
  apply not_eq_sym, isSep_false in Hc. rewrite Hc, IH; done.
Qed.

Lemma split_snoc d n :
  "/"%char ∉ n -> path.split (d ++ "/"%char :: n) = path.split d ++ [n].
Proof.
  intros Hn. induction d as [|c d IH]; cbn.
  - by rewrite split_nosep.
  - destruct (path.isSep c); rewrite IH; [done|].
    pose proof (split_not_nil d). by destruct (path.split d).
Qed.

Lemma lastPortion'_snoc l acc n :
  n <> [] -> path.lastPortion' (l ++ [n]) acc = n.
Proof.
  intros Hn. revert acc. induction l as [|seg l IH]; intros acc; cbn.
  - by destruct n.
  - destruct seg; apply IH.
Qed.

Lemma lastPortion_snoc pre n :
  n <> [] -> "/"%char ∉ n -> path.lastPortion (pre ++ "/"%char :: n) = n.
Proof.
  intros Hne Hn. unfold path.lastPortion. rewrite split_snoc by done.
  by apply lastPortion'_snoc.
Qed.

Lemma lastPortion_name n : "/"%char ∉ n -> path.lastPortion n = n.
Proof.
  intros Hn. unfold path.lastPortion. rewrite split_nosep by done.
  by destruct n.
Qed.

Lemma split_nosep_segs s : Forall (fun seg => "/"%char ∉ seg) (path.split s).
Proof.
  induction s as [|c s IH]; cbn.
  - repeat constructor. apply not_elem_of_nil.
  - destruct (path.isSep c) eqn:Hc.
    + constructor; [apply not_elem_of_nil | done].
    + destruct (path.split s) as [|seg segs]; inversion IH; subst.
      * repeat constructor. apply not_elem_of_cons. split; [|apply not_elem_of_nil].
        apply isSep_false in Hc. congruence.
      * constructor; [|done]. apply not_elem_of_cons. split; [|done].
        apply isSep_false in Hc. congruence.
Qed.

Lemma lastPortion'_nosep l acc :
  Forall (fun seg => "/"%char ∉ seg) l -> "/"%char ∉ acc ->
  "/"%char ∉ path.lastPortion' l acc.
Proof.
  intros Hl. revert acc. induction Hl as [|seg l Hseg _ IH]; intros acc Hacc; cbn; [done|].
  destruct seg; by apply IH.
Qed.

Lemma lastPortion_nosep p : "/"%char ∉ path.lastPortion p.
Proof.
  apply lastPortion'_nosep; [apply split_nosep_segs | apply not_elem_of_nil].
Qed.

Lemma joinSegs_snoc X n :
  path.joinSegs (X ++ [n]) =
  match X with [] => n | _ => path.joinSegs X ++ "/"%char :: n end.
Proof.
  induction X as [|seg X IH]; [done|].
  cbn [app path.joinSegs]. rewrite IH.
  destruct X as [|seg' X]; [done|]. cbn. by rewrite <- app_assoc.
Qed.

Lemma normalizeSegs_snoc allow res l n :
  n <> [] -> n <> lit "." -> n <> lit ".." ->
  path.normalizeSegs allow res (l ++ [n]) = path.normalizeSegs allow res l ++ [n].
Proof.
  intros H1 H2 H3. revert res. induction l as [|seg l IH]; intros res; cbn.
  - rewrite !bool_decide_eq_false_2 by done. done.
  - repeat case_bool_decide; cbn; try apply IH.
    all: destruct res as [|top res']; try apply IH.
    all: repeat case_bool_decide; try apply IH.
    all: destruct allow; apply IH.
Qed.

Lemma last_snoc_name (d n : jsstring) :
  n <> [] -> "/"%char ∉ n ->
  match last (d ++ n) with Some c => path.isSep c | None => false end = false.
Proof.
  intros Hne Hn. destruct (last (d ++ n)) as [c|] eqn:Hl; [|done].
  apply isSep_false. intros ->.
  rewrite last_app in Hl. destruct (last n) as [c|] eqn:Hn'.
  - injection Hl as ->. apply last_Some in Hn' as [n' ->].
    apply Hn. apply elem_of_app. right. by left.
  - apply last_None in Hn'. done.
Qed.

(** The last portion of a join is the name joined. *)
Lemma lastPortion_join d n :
  properName n -> path.lastPortion (path.join d n) = n.
Proof.
  intros (Hne & Hsep & Hdot & Hdots).
  assert (Hnorm : forall p, p = n \/ (exists d', p = d' ++ "/"%char :: n) ->
                            path.lastPortion (path.normalize p) = n).
  { intros p Hp. unfold path.normalize.
    assert (Hsplit : exists l, path.split p = l ++ [n]).
    { destruct Hp as [->|(d' & ->)].
      - exists []. by apply split_nosep.
      - eexists. by apply split_snoc. }
    destruct Hsplit as [l Hl].
    assert (Hlast : match last p with Some c => path.isSep c | None => false end = false).
    { destruct Hp as [->|(d' & ->)].
      - by apply (last_snoc_name []).
      - change (d' ++ "/"%char :: n) with (d' ++ ["/"%char] ++ n). rewrite app_assoc.
        by apply last_snoc_name. }
    destruct p as [|c0 p']; [by destruct Hp as [?|[[|??] ?]]; subst|].
    rewrite Hlast, Hl, normalizeSegs_snoc, joinSegs_snoc by done.
    set (X := path.normalizeSegs _ _ _).
    destruct X as [|seg X].
    - destruct n as [|c n]; [done|].
      destruct (path.isSep c0).
      + by apply (lastPortion_snoc []).
      + by apply lastPortion_name.
    - remember (path.joinSegs (seg :: X)) as q.
      destruct (q ++ "/"%char :: n) as [|c q'] eqn:Hq; [by destruct q|].
      rewrite <- Hq. destruct (path.isSep c0).
      + change ("/"%char :: q ++ "/"%char :: n) with (("/"%char :: q) ++ "/"%char :: n).
        by apply lastPortion_snoc.
      + by apply lastPortion_snoc. }
  unfold path.join. destruct d as [|c d], n as [|c' n]; try done.
  - apply Hnorm. by left.
  - apply Hnorm. right. by exists (c :: d).
Qed.

Lemma lastDot_app stem e :
  path.lastDot (stem ++ "."%char :: e) =
  match path.lastDot e with
  | Some (stem', e') => Some (stem ++ "."%char :: stem', e')
  | None => Some (stem, "."%char :: e)
  end.
Proof.
  induction stem as [|c stem IH]; cbn.
  - destruct (path.lastDot e) as [[? ?]|]; done.
  - rewrite IH. destruct (path.lastDot e) as [[? ?]|]; done.
Qed.

Lemma lastDot_None e : path.lastDot e = None <-> "."%char ∉ e.
Proof.
  induction e as [|c e IH]; cbn.
  - split; [intros _; apply not_elem_of_nil | done].
  - rewrite not_elem_of_cons. destruct (path.lastDot e) as [[? ?]|].
    + split; [done|]. intros [_ H]. by apply IH in H.
    + case_bool_decide; split; try done.
      * intros [? _]. congruence.
      * intros _. split; [congruence | by apply IH].
Qed.

Lemma lastDot_Some b stem e :
  path.lastDot b = Some (stem, e) ->
  b = stem ++ e /\ exists e', e = "."%char :: e' /\ "."%char ∉ e'.
Proof.
  revert stem e. induction b as [|c b IH]; intros stem e; cbn; [done|].
  destruct (path.lastDot b) as [[stem' e0]|] eqn:Hb.
  - intros [= <- <-]. destruct (IH _ _ eq_refl) as (-> & e' & -> & He'). eauto.
  - case_bool_decide as Hc; [|done]. intros [= <- <-]. subst c.
    split; [done|]. exists b. split; [done|]. by apply lastDot_None.
Qed.

(** The shape of an extension: empty, or a dot and then no further dot;
    in the second case a non-empty stem precedes it. *)
Lemma extOf_shape b :
  path.extOf b = [] \/
  exists stem e, b = stem ++ "."%char :: e /\ stem <> [] /\ ("."%char ∉ e)
                 /\ path.extOf b = "."%char :: e.
Proof.
  unfold path.extOf. destruct (path.lastDot b) as [[stem e]|] eqn:Hb; [|by left].
  repeat case_bool_decide; try by left.
  apply lastDot_Some in Hb as (-> & e' & -> & He'). right. eauto 10.
Qed.

Lemma extOf_app x e :
  x <> [] -> "."%char ∉ e -> x ++ "."%char :: e <> lit ".." ->
  path.extOf (x ++ "."%char :: e) = "."%char :: e.
Proof.
  intros Hx He Hb. unfold path.extOf. rewrite lastDot_app.
  apply lastDot_None in He. rewrite He.
  rewrite !bool_decide_eq_false_2 by done. done.
Qed.

Lemma stripSuffix_app stem e : path.stripSuffix e (stem ++ e) = Some stem.
Proof.
  unfold path.stripSuffix. rewrite length_app.
  replace (length stem + length e - length e)%nat with (length stem) by lia.
  rewrite drop_app_length, take_app_length.
  rewrite !bool_decide_eq_true_2 by (done || lia). done.
Qed.

(** The stem and the extension make up the last portion again. *)
Lemma basename_extname p :
  path.basename p (path.extname p) ++ path.extname p = path.lastPortion p.
Proof.
  unfold path.basename, path.extname.
  destruct (extOf_shape (path.lastPortion p)) as [->|(stem & e & Hb & Hstem & He & ->)].
  - by rewrite app_nil_r.
  - rewrite Hb. change (stem ++ "."%char :: e) with (stem ++ ("."%char :: e)).
    rewrite stripSuffix_app.
    case_bool_decide as Hp.
    + exfalso. pose proof (lastPortion_nosep p) as Hn. rewrite Hb in Hn.
      apply not_elem_of_app in Hn as [_ Hn].
      rewrite <- Hp, lastPortion_name in Hb by done.
      apply (f_equal length) in Hb. rewrite length_app in Hb.
      destruct stem; [done|]. cbn in Hb. lia.
    + by destruct stem.
Qed.

Lemma render_snoc dirs name :
  render (dirs ++ [name]) = render dirs ++ "/"%char :: name.
Proof. unfold render. rewrite map_app, concat_app. cbn. by rewrite app_nil_r. Qed.

Lemma dropWhile_app_stop f s c t :
  (forall x, x ∈ s -> f x = true) -> f c = false ->
  path.dropWhile f (s ++ c :: t) = c :: t.
Proof.
  intros Hs Hc. induction s as [|x s IH]; cbn.
  - by rewrite Hc.
  - rewrite (Hs x) by left. apply IH. intros y Hy. apply Hs. by right.
Qed.

Lemma dropWhile_stop f s : (match s with c :: _ => f c = false | [] => True end) ->
  path.dropWhile f s = s.
Proof. destruct s as [|c s]; cbn; [done|]. by intros ->. Qed.

Lemma dirname_walked dirs name :
  Forall properName (dirs ++ [name]) ->
  path.dirname (render (dirs ++ [name])) =
  match dirs with [] => lit "/" | _ => render dirs end.
Proof.
  intros Hall. apply Forall_app in Hall as [Hdirs Hname].
  inversion Hname as [|? ? (Hne & Hsep & _) _]; subst.
  rewrite render_snoc. unfold path.dirname.
  destruct (render dirs ++ "/"%char :: name) as [|c0 p'] eqn:Hp; [by destruct (render dirs)|].
  rewrite <- Hp. rewrite rev_app_distr. cbn [rev]. rewrite <- app_assoc. cbn [app].
  assert (Hc0 : path.isSep c0 = true).
  { destruct dirs as [|d dirs]; cbn in Hp; by injection Hp as <- _. }
  rewrite Hc0.
  rewrite (dropWhile_stop path.isSep).
  2:{ destruct (rev name) as [|c r] eqn:Hr; cbn.
      - apply (f_equal (@rev ascii)) in Hr. rewrite rev_involutive in Hr. done.
      - apply isSep_false. intros ->. apply Hsep.
        apply list_elem_of_In, in_rev. rewrite Hr. by left. }
  rewrite dropWhile_app_stop.
  2:{ intros x Hx. apply negb_true_iff, isSep_false. intros ->. apply Hsep.
      by apply list_elem_of_In, in_rev, list_elem_of_In. }
  2:{ done. }
  destruct dirs as [|d dirs]; [done|].
  inversion Hdirs as [|? ? (Hdne & _) _]; subst.
  destruct (rev (render (d :: dirs))) as [|c r] eqn:Hr.
  { apply (f_equal (@rev ascii)) in Hr. rewrite rev_involutive in Hr. done. }
  rewrite <- Hr, rev_involutive.
  rewrite bool_decide_eq_false_2; [done|].
  rewrite length_rev. destruct d; [done|]. cbn. rewrite length_app. cbn. lia.
Qed.

Lemma properName_nosep n : properName n -> "/"%char ∉ n.
Proof. by intros (_ & ? & _). Qed.

Lemma split_render dirs :
  Forall properName dirs -> path.split (render dirs) = [] :: dirs.
Proof.
  induction dirs as [|d dirs IH] using rev_ind; intros Hall; [done|].
  apply Forall_app in Hall as [Hdirs Hd]. inversion Hd as [|? ? Hp _]; subst.
  rewrite render_snoc, split_snoc by by apply properName_nosep.
  by rewrite IH.
Qed.

Lemma normalizeSegs_proper allow res l :
  Forall properName l -> path.normalizeSegs allow res l = rev res ++ l.
Proof.
  intros Hl. revert res. induction Hl as [|n l (H1 & _ & H2 & H3) _ IH]; intros res; cbn.
  - by rewrite app_nil_r.
  - rewrite !bool_decide_eq_false_2 by done. cbn. rewrite IH. cbn.
    by rewrite <- app_assoc.
Qed.

Lemma render_joinSegs l : l <> [] -> "/"%char :: path.joinSegs l = render l.
Proof.
  induction l as [|seg l IH]; [done|]. intros _.
  destruct l as [|seg' l].
  - cbn. by rewrite app_nil_r.
  - change (render (seg :: seg' :: l)) with (("/"%char :: seg) ++ render (seg' :: l)).
    rewrite <- IH by done. done.
Qed.

(** Joining a name to the directory of a walked path gives the walked path
    of that name in the same directory. *)
Lemma join_dirname_walked dirs name n :
  Forall properName (dirs ++ [name]) -> properName n ->
  path.join (path.dirname (render (dirs ++ [name]))) n = render (dirs ++ [n]).
Proof.
  intros Hall Hn. rewrite dirname_walked by done.
  apply Forall_app in Hall as [Hdirs _].
  pose proof Hn as (Hne & Hsep & Hdot & Hdots).
  assert (Hgen : forall pre segs,
             (exists t, pre = "/"%char :: t) ->
             path.normalizeSegs false [] (path.split pre) = segs ->
             path.join pre n = render (segs ++ [n])).
  { intros pre segs [t ->] Hsegs. unfold path.join.
    destruct n as [|c n']; [done|]. remember (c :: n') as m.
    unfold path.normalize. cbn [app].
    change (path.isSep "/") with true. cbn [negb].
    change ("/"%char :: t ++ "/"%char :: m) with (("/"%char :: t) ++ "/"%char :: m).
    rewrite split_snoc, normalizeSegs_snoc, Hsegs by done.
    replace (match last (("/"%char :: t) ++ "/"%char :: m) with
             | Some c => path.isSep c | None => false end) with false.
    2:{ symmetry. change (("/"%char :: t) ++ "/"%char :: m)
          with (("/"%char :: t) ++ ["/"%char] ++ m).
        rewrite app_assoc. apply last_snoc_name; done. }
    rewrite <- render_joinSegs by by destruct segs.
    destruct (path.joinSegs (segs ++ [m])) eqn:Hq; [|done].
    rewrite joinSegs_snoc in Hq. destruct segs; [by subst|].
    by destruct (path.joinSegs (l :: segs)). }
  destruct dirs as [|d dirs].
  - apply (Hgen (lit "/") []); [by eexists|done].
  - apply Hgen.
    + by eexists.
    + rewrite split_render by done.
      change (path.normalizeSegs false [] ([] :: d :: dirs))
        with (path.normalizeSegs false [] (d :: dirs)).
      by rewrite (normalizeSegs_proper false []).
Qed.

Lemma lastPortion_walked dirs name :
  properName name -> path.lastPortion (render (dirs ++ [name])) = name.
Proof.
  intros (Hne & Hsep & _). rewrite render_snoc. by apply lastPortion_snoc.
Qed.

(** ** Lower case *)

Lemma lowerChar_dot c : lowerChar c = "."%char -> c = "."%char.
Proof.
  destruct c as [[] [] [] [] [] [] [] []]; vm_compute; congruence.
Qed.

Lemma toLowerCase_nodot e : "."%char ∉ e -> "."%char ∉ toLowerCase e.
Proof.
  intros He Hin. apply list_elem_of_fmap in Hin as (c & Hc & Hin).
  symmetry in Hc. apply lowerChar_dot in Hc as ->. done.
Qed.

(** ** The rename planner *)

Lemma getNewFilePath_unfold opts info fileExt p :
  getNewFilePath opts info fileExt p =
  let newPath := path.join (path.dirname p) (safeNewName opts info fileExt p) in
  if bool_decide (newPath = p) then None else Some newPath.
Proof. reflexivity. Qed.

Lemma safeNewName_proper opts info fileExt p :
  properName (safeNewName opts info fileExt p).
Proof.
  assert (Hlen : (3 <= length (safeNewName opts info fileExt p))%nat).
  { unfold safeNewName. rewrite replaceReserved_length, !length_app. cbn. lia. }
  repeat split.
  - intros H. rewrite H in Hlen. cbn in Hlen. lia.
  - apply replaceReserved_clean. by vm_compute; left.
  - intros H. rewrite H in Hlen. cbn in Hlen. lia.
  - intros H. rewrite H in Hlen. cbn in Hlen. lia.
Qed.

Lemma basename_getNewFilePath opts info fileExt p newPath :
  getNewFilePath opts info fileExt p = Some newPath ->
  path.basename newPath [] = safeNewName opts info fileExt p.
Proof.
  rewrite getNewFilePath_unfold. cbn zeta. case_bool_decide; [done|].
  intros [= <-]. cbn [path.basename]. apply lastPortion_join, safeNewName_proper.
Qed.

(** ** The metadata extractor *)

Lemma jsOr_firstTruthy4 a b c d : a ||| b ||| c ||| d = firstTruthy [a; b; c] d.
Proof.
  unfold jsOr. cbn.
  destruct (truthy a) eqn:Ha; cbn; rewrite ?Ha; cbn; [done|].
  destruct (truthy b) eqn:Hb; cbn; rewrite ?Hb; cbn; [done|].
  by destruct (truthy c) eqn:Hc; cbn; rewrite ?Hc.
Qed.

Lemma jsOr_firstTruthy3 a b d : a ||| b ||| d = firstTruthy [a; b] d.
Proof.
  unfold jsOr. cbn.
  destruct (truthy a) eqn:Ha; cbn; rewrite ?Ha; cbn; [done|].
  by destruct (truthy b) eqn:Hb; cbn; rewrite ?Hb.
Qed.

Lemma truthy_emptyValue v : truthy v = negb (emptyValue v).
Proof. by destruct v as [| |[]|[] ?|[|? ?]|?]. Qed.

Lemma firstTruthy_firstNonEmptyValue vals last :
  firstTruthy vals last = default last (firstNonEmptyValue vals).
Proof.
  induction vals as [|v vals IH]; cbn; [done|].
  rewrite truthy_emptyValue. by destruct (emptyValue v).
Qed.

(** The value an [||] chain selects, with its last operand among the
    values: the first that is not empty, and the last, empty, operand when
    there is none. *)
Lemma firstTruthy_selected vals last :
  match firstNonEmptyValue (vals ++ [last]) with
  | Some v => firstTruthy vals last = v /\ emptyValue v = false
  | None => firstTruthy vals last = last /\ emptyValue last = true
  end.
Proof.
  induction vals as [|v vals IH]; cbn.
  - destruct (emptyValue last) eqn:Hlast; by cbn.
  - rewrite truthy_emptyValue. destruct (emptyValue v) eqn:Hv; by cbn.
Qed.

Lemma toStr_textOf v : hasText v -> toStr v = Ok (textOf v).
Proof. unfold hasText. by destruct v as [| |[]|? ?|?|[?|]]. Qed.

Lemma name_of_values a b c d :
  stringOrAbsent (firstTruthy [a; b; c] d) ->
  exists name,
    optReplace (firstTruthy [a; b; c] d) = Ok name
    /\ orString name (lit "UnknownName")
       = match firstNonEmptyValue [a; b; c; d] with
         | Some v => replaceReserved (textOf v)
         | None => lit "UnknownName"
         end.
Proof.
  intros Hsel. pose proof (firstTruthy_selected [a; b; c] d) as Hfirst.
  change ([a; b; c] ++ [d]) with [a; b; c; d] in Hfirst.
  destruct (firstNonEmptyValue [a; b; c; d]) as [v|]; destruct Hfirst as [Hv Hempty];
    rewrite Hv in *.
  - destruct v as [| |[]|[] ?|[|ch s]|?]; try done. eexists. split; [done|]. done.
  - destruct d as [| |[]|[] ?|[|ch s]|?]; try done; eexists; (split; [done|]); done.
Qed.

Lemma version_of_values v1 v2 :
  hasText (firstTruthy [v1; v2] JNull) ->
  (if truthy (firstTruthy [v1; v2] JNull)
   then v ← toStr (firstTruthy [v1; v2] JNull); mret (lit " [v" ++ v ++ lit "]")
   else mret [])
  = Ok match firstNonEmptyValue [v1; v2] with
       | Some v => lit " [v" ++ textOf v ++ lit "]"
       | None => []
       end.
Proof.
  intros Htext. pose proof (firstTruthy_selected [v1; v2] JNull) as Hfirst.
  assert (Hvals : firstNonEmptyValue ([v1; v2] ++ [JNull]) = firstNonEmptyValue [v1; v2]).
  { cbn. by destruct (emptyValue v1), (emptyValue v2). }
  rewrite Hvals in Hfirst.
  destruct (firstNonEmptyValue [v1; v2]) as [v|]; destruct Hfirst as [Hv Hempty];
    rewrite Hv in *.
  - rewrite truthy_emptyValue, Hempty. cbn [negb]. by rewrite toStr_textOf.
  - done.
Qed.

Lemma minIOS_of_value v :
  hasText v ->
  toStr (v ||| JStr (lit "0.0.0"))
  = Ok match firstNonEmptyValue [v] with
       | Some v => textOf v
       | None => lit "0.0.0"
       end.
Proof.
  intros Htext. unfold jsOr. rewrite truthy_emptyValue. cbn.
  destruct (emptyValue v); cbn [negb]; [done|]. by apply toStr_textOf.
Qed.

(** C3 (as amended): on every manifest on which the extractor does not
    raise it returns: the first name that is not empty among the four name
    keys in their order, each reserved character replaced by a space, or
    UnknownName; the first version that is not empty among the two version
    keys inside [ [v...]], a number by its text, or the empty string; and
    [ [iOS ...]] around the MinimumOSVersion value, which is 0.0.0 when
    the key is absent or its value is empty. *)
Theorem extractAppInfo_amended (data : gmap string JsVal) :
  extractable data ->
  extractAppInfo data = Ok (amended_AppMetadata data).
Proof.
  intros (Hname & Hversion & Hos). unfold extractAppInfo, amended_AppMetadata.
  rewrite jsOr_firstTruthy4, jsOr_firstTruthy3.
  destruct (name_of_values _ _ _ _ Hname) as (name & -> & Hname').
  cbn [mbind Result_bind]. cbn zeta.
  rewrite (version_of_values _ _ Hversion). cbn [mbind Result_bind].
  rewrite (minIOS_of_value _ Hos). cbn [mbind Result_bind mret Result_ret].
  by rewrite Hname'.
Qed.

(** The condition of C3 is no narrower than it must be: on every other
    manifest the extractor raises. *)
Lemma extractable_exact data : extractAppInfo data <> Throw -> extractable data.
Proof.
  unfold extractAppInfo, extractable. rewrite jsOr_firstTruthy4, jsOr_firstTruthy3.
  set (nameV := firstTruthy _ (prop data "UILocalizedDisplayName")).
  set (rawVersion := firstTruthy _ JNull).
  intros Hreturns.
  assert (Hname : stringOrAbsent nameV).
  { destruct nameV; try done; by destruct Hreturns. }
  split; [done|].
  destruct (optReplace nameV) as [name|] eqn:Hn; [|by destruct nameV].
  cbn [mbind Result_bind] in Hreturns.
  assert (Hversion : hasText rawVersion).
  { intros Heq. apply Hreturns. by rewrite Heq. }
  split; [done|]. intros Heq. apply Hreturns. rewrite Heq.
  by destruct (if truthy rawVersion then _ else _).
Qed.

Lemma extractable_manifestNumericVersion : extractable manifestNumericVersion.
Proof. by repeat split. Qed.

(** C3 on a manifest whose version and minimum OS version are numbers. *)
Lemma extractAppInfo_amended_witness :
  extractable manifestNumericVersion
  /\ extractAppInfo manifestNumericVersion
     = Ok (mkAppInfo (lit "Tool") (lit " [v42]") (lit " [iOS 14]")).
Proof.
  split; [exact extractable_manifestNumericVersion|].
  rewrite (extractAppInfo_amended manifestNumericVersion
             extractable_manifestNumericVersion).
  reflexivity.
Defined.

(** C3, as it is worded, fails on a manifest whose MinimumOSVersion is the
    empty string: the key is not absent, so the worded metadata put the
    empty value between the brackets, and the extractor puts 0.0.0 there. *)
Lemma extractAppInfo_empty_MinimumOSVersion :
  extractAppInfo manifestEmptyMinimumOS
    = Ok (mkAppInfo (lit "Tool") [] (lit " [iOS 0.0.0]"))
  /\ spec_AppMetadata manifestEmptyMinimumOS
    = mkAppInfo (lit "Tool") [] (lit " [iOS ]").
Proof. split; reflexivity. Qed.

(** C5 (the code departs from it): a manifest whose display name is a
    number makes the extractor raise, as a number has no [replace]; and so
    does every display name that is truthy and not a string. *)
Theorem extractAppInfo_numeric_name_throws :
  extractAppInfo manifestNumericName = Throw
  /\ forall data v,
       data !! "CFBundleDisplayName" = Some v ->
       truthy v = true -> (forall s, v <> JStr s) ->
       extractAppInfo data = Throw.
Proof.
  split; [reflexivity|].
  intros data v Hv Htruthy Hstr.
  assert (Hprop : prop data "CFBundleDisplayName" = v).
  { unfold prop. by rewrite Hv. }
  unfold extractAppInfo. rewrite Hprop. unfold jsOr. rewrite !Htruthy.
  destruct v as [| |b|falsy shown|s|shown]; try discriminate; try reflexivity.
  by destruct (Hstr s).
Qed.

(** ** The manifest locator *)

(** C4 (as amended): the locator returns the first entry, in the order of
    the archive, whose name ends with [Payload/<segment>.app/Info.plist]
    (one non-empty segment without a separator; the pattern has no anchor at
    its start, so any prefix may come before [Payload]), and none when no
    entry has such a name. *)
Theorem locateManifest_first_match (entries : list Entry) :
  match locateManifest entries with
  | Some e =>
      exists before after,
        entries = before ++ e :: after
        /\ manifestShape (fileName e)
        /\ Forall (fun e' => ~ manifestShape (fileName e')) before
  | None =>
      Forall (fun e => ~ manifestShape (fileName e)) entries
      /\ forall (parsers : PlistParsers) fs ipaPath,
           fs !! ipaPath = Some (Zip entries) ->
           extractInfoFromIPA fs ipaPath = Ok None
  end.
Proof.
  assert (Hfirst :
    match locateManifest entries with
    | Some e =>
        exists before after,
          entries = before ++ e :: after
          /\ manifestShape (fileName e)
          /\ Forall (fun e' => ~ manifestShape (fileName e')) before
    | None => Forall (fun e => ~ manifestShape (fileName e)) entries
    end).
  { unfold locateManifest, manifestShape.
    induction entries as [|e entries IH]; cbn; [constructor|].
    destruct (isManifestName (fileName e)) eqn:He.
    - exists [], entries. split; [done|]. split; [|constructor].
      by apply isManifestName_spec.
    - assert (Hne : ~ manifestShape (fileName e)).
      { intros Hs. apply isManifestName_spec in Hs. congruence. }
      destruct (find _ entries) as [e'|].
      + destruct IH as (before & after & -> & Hs & Hb).
        exists (e :: before), after. split; [done|]. split; [done|].
        by constructor.
      + by constructor. }
  destruct (locateManifest entries) as [e|] eqn:Hl; [done|].
  split; [done|]. intros parsers fs ipaPath Hfs.
  unfold extractInfoFromIPA. by rewrite Hfs, Hl.
Qed.

(** C4, as it is worded with an anchor before [Payload], fails on an entry
    below a further folder: the locator returns it, the anchored pattern
    does not match it. *)
Lemma locateManifest_nested_folder :
  locateManifest nestedEntries
    = Some (mkEntry (lit "Backup/Payload/X.app/Info.plist") (Data (lit "<plist/>")))
  /\ spec_locateManifest nestedEntries = None.
Proof. split; reflexivity. Qed.

(** ** The manifest decoder *)

(** C8: a buffer whose first six bytes are [bplist] goes to the binary
    parser, and element 0 of what it returns is the manifest; every other
    buffer, the buffers of fewer than six bytes among them, goes to the
    textual parser as a string. *)
Theorem parseManifest_routing `{parsers : PlistParsers} (buffer : Buffer) :
  (take 6 buffer = lit "bplist" ->
     sniff buffer = Binary
     /\ parseManifest buffer
        = (arr ← bplist_parseBuffer buffer; Some (default PNullish (head arr))))
  /\ (take 6 buffer <> lit "bplist" ->
     sniff buffer = Textual
     /\ parseManifest buffer = plist_parse (toString buffer))
  /\ ((length buffer < 6)%nat -> sniff buffer = Textual).
Proof.
  assert (Htext : take 6 buffer <> lit "bplist" -> sniff buffer = Textual).
  { intros Hne. destruct (sniff buffer) eqn:Hs; [|done].
    by apply sniff_Binary in Hs. }
  split; [|split].
  - intros Hb. apply sniff_Binary in Hb. unfold parseManifest. by rewrite Hb.
  - intros Hne. unfold parseManifest. by rewrite (Htext Hne).
  - intros Hlen. apply Htext. intros Heq.
    apply (f_equal length) in Heq. rewrite length_take in Heq.
    change (length (lit "bplist")) with 6%nat in Heq. lia.
Qed.

(** ** The rename planner *)

Lemma safeNewName_ext opts info fileExt p :
  safeNewName opts info fileExt p =
  replaceReserved
    ((if INCLUDE_ORIGINAL_NAME opts
      then path.basename p (path.extname p) ++ lit " ↔ " else [])
     ++ appName info ++ lit " –" ++ version info ++ minIOS info)
  ++ replaceReserved fileExt.
Proof.
  unfold safeNewName. rewrite <- replaceReserved_app. f_equal.
  by rewrite <- !app_assoc.
Qed.

Lemma safeNewName_with_original opts info fileExt p :
  INCLUDE_ORIGINAL_NAME opts = true ->
  safeNewName opts info fileExt p =
  replaceReserved (path.basename p (path.extname p)) ++ lit " ↔ "
  ++ replaceReserved
       (appName info ++ lit " –" ++ version info ++ minIOS info ++ fileExt).
Proof.
  intros Hopt. unfold safeNewName. rewrite Hopt, !replaceReserved_app.
  by rewrite <- !app_assoc.
Qed.

(** With the original name in front, the new path is never the old one. *)
Lemma join_safeNewName_neq opts info fileExt p :
  INCLUDE_ORIGINAL_NAME opts = true ->
  path.join (path.dirname p) (safeNewName opts info fileExt p) <> p.
Proof.
  intros Hopt Heq. apply (f_equal path.lastPortion) in Heq.
  rewrite lastPortion_join in Heq by apply safeNewName_proper.
  rewrite <- basename_extname, safeNewName_with_original in Heq by done.
  apply app_inj_1 in Heq as [_ Heq]; [|apply replaceReserved_length].
  unfold path.extname in Heq.
  destruct (extOf_shape (path.lastPortion p)) as [He|(stem & e & _ & _ & _ & He)];
    rewrite He in Heq; discriminate.
Qed.

(** C7: whatever the manifest holds, no reserved character occurs in the
    basename of a planned path: the basename is the assembled name (the
    original name when it is included, the name, the version, the platform
    and the extension) with every reserved character replaced by a space. *)
Theorem planned_basename_has_no_reserved_char (c : ascii)
    (data : gmap string JsVal) (info : AppInfo) (opts : Settings)
    (fileExt originalPath newPath : jsstring) :
  c ∈ reservedChars ->
  extractAppInfo data = Ok info ->
  getNewFilePath opts info fileExt originalPath = Some newPath ->
  (c ∉ path.basename newPath [])
  /\ path.basename newPath [] =
     map (fun a => if bool_decide (a ∈ reservedChars) then " "%char else a)
       ((if INCLUDE_ORIGINAL_NAME opts
         then path.basename originalPath (path.extname originalPath) ++ lit " ↔ "
         else [])
        ++ appName info ++ lit " –" ++ version info ++ minIOS info ++ fileExt).
Proof.
  intros Hc _ Hplan. apply basename_getNewFilePath in Hplan. rewrite Hplan.
  split; [|done]. by apply replaceReserved_clean.
Qed.

(** C7 for the colon, on a name with a slash, a colon and a question mark. *)
Lemma planned_basename_has_no_reserved_char_witness :
  path.basename
    (lit "/ipa/x ↔ A B  C  – [v1 2] [iOS 0.0.0].ipa") [] =
    lit "x ↔ A B  C  – [v1 2] [iOS 0.0.0].ipa"
  /\ (":"%char ∉ path.basename
        (lit "/ipa/x ↔ A B  C  – [v1 2] [iOS 0.0.0].ipa") []).
Proof.
  split; [reflexivity|].
  apply (planned_basename_has_no_reserved_char ":" manifestReservedName
           (mkAppInfo (lit "A B  C ") (lit " [v1|2]") (lit " [iOS 0.0.0]"))
           iOSIPARenamerSettings (lit ".ipa") (lit "/ipa/x.ipa")).
  - by vm_compute; do 2 right; left.
  - reflexivity.
  - reflexivity.
Defined.

(** C10: with INCLUDE_ORIGINAL_NAME on, the planner returns a path for
    every metadata and every original path: the basename of that path is
    the original name, then [ ↔ ], then the part made from the metadata (all
    after the replacement of the reserved characters), so the path differs
    from the original one; and the loop renames every supported file whose
    metadata it could extract, on every run. *)
Theorem getNewFilePath_with_original_name `{parsers : PlistParsers}
    `{env : Environment} (opts : Settings)
    (info : AppInfo) (fileExt originalPath : jsstring) (st : State) :
  INCLUDE_ORIGINAL_NAME opts = true ->
  (exists newPath,
     getNewFilePath opts info fileExt originalPath = Some newPath
     /\ newPath <> originalPath
     /\ path.basename newPath [] =
        replaceReserved (path.basename originalPath (path.extname originalPath))
        ++ lit " ↔ "
        ++ replaceReserved
             (appName info ++ lit " –" ++ version info ++ minIOS info ++ fileExt))
  /\ (isFileSupported opts (toLowerCase (path.extname originalPath)) = true ->
      extractInfoFromIPA (files st) originalPath = Ok (Some info) ->
      exists newPath,
        newPath <> originalPath
        /\ processFile opts st originalPath
           = Ok (safeRenameFile st originalPath newPath)).
Proof.
  intros Hopt.
  assert (Hplan : forall ext, exists newPath,
             getNewFilePath opts info ext originalPath = Some newPath
             /\ newPath <> originalPath
             /\ path.basename newPath [] = safeNewName opts info ext originalPath).
  { intros ext. rewrite getNewFilePath_unfold. cbn zeta.
    pose proof (join_safeNewName_neq opts info ext originalPath Hopt) as Hne.
    rewrite bool_decide_eq_false_2 by done.
    eexists. split; [done|]. split; [done|].
    apply lastPortion_join, safeNewName_proper. }
  split.
  - destruct (Hplan fileExt) as (newPath & Hp & Hne & Hb).
    exists newPath. split; [done|]. split; [done|].
    by rewrite Hb, safeNewName_with_original.
  - intros Hsup Hinfo.
    destruct (Hplan (toLowerCase (path.extname originalPath)))
      as (newPath & Hp & Hne & _).
    exists newPath. split; [done|].
    unfold processFile. rewrite Hsup, Hinfo. cbn. by rewrite Hp.
Qed.

(** C10 on the file of the scenario. *)
Lemma getNewFilePath_with_original_name_witness :
  (exists newPath,
     getNewFilePath iOSIPARenamerSettings infoMyApp (lit ".ipa")
       (lit "/ipa/game.ipa") = Some newPath
     /\ newPath <> lit "/ipa/game.ipa"
     /\ path.basename newPath [] = lit "game ↔ My App – [v2.1] [iOS 14.0].ipa")
  /\ exists newPath,
       newPath <> lit "/ipa/game.ipa"
       /\ processFile (parsers := parsersMyApp) (env := envIpa) iOSIPARenamerSettings
            (startState {[ lit "/ipa/game.ipa" := archiveMyApp ]})
            (lit "/ipa/game.ipa")
          = Ok (safeRenameFile (env := envIpa)
                  (startState {[ lit "/ipa/game.ipa" := archiveMyApp ]})
                  (lit "/ipa/game.ipa") newPath).
Proof.
  destruct (getNewFilePath_with_original_name (parsers := parsersMyApp) (env := envIpa)
              iOSIPARenamerSettings infoMyApp
              (lit ".ipa") (lit "/ipa/game.ipa")
              (startState {[ lit "/ipa/game.ipa" := archiveMyApp ]}) eq_refl)
    as [H1 H2].
  split; [exact H1|]. apply H2; reflexivity.
Defined.

Lemma render_snoc_inj dirs n1 n2 :
  render (dirs ++ [n1]) = render (dirs ++ [n2]) <-> n1 = n2.
Proof.
  rewrite !render_snoc. split; [|by intros ->].
  intros Heq. apply app_inv_head in Heq. by injection Heq.
Qed.

(** The plan for a file of the walk: the new name in the directory of the
    file, unless it is the name of the file. *)
Lemma getNewFilePath_walked opts info fileExt dirs name :
  Forall properName (dirs ++ [name]) ->
  getNewFilePath opts info fileExt (render (dirs ++ [name])) =
  if bool_decide (safeNewName opts info fileExt (render (dirs ++ [name])) = name)
  then None
  else Some (render (dirs ++ [safeNewName opts info fileExt (render (dirs ++ [name]))])).
Proof.
  intros Hall. rewrite getNewFilePath_unfold. cbn zeta.
  rewrite join_dirname_walked by (done || apply safeNewName_proper).
  by rewrite (bool_decide_ext _ _ (render_snoc_inj dirs _ name)).
Qed.

Lemma extname_lower_shape p :
  toLowerCase (path.extname p) <> [] ->
  exists e, toLowerCase (path.extname p) = "."%char :: e /\ "."%char ∉ e.
Proof.
  unfold path.extname.
  destruct (extOf_shape (path.lastPortion p)) as [He|(stem & e & _ & _ & He' & He)];
    rewrite He; [done|]. intros _.
  exists (toLowerCase e). split; [done|]. by apply toLowerCase_nodot.
Qed.

(** The new name ends with the extension it was given. *)
Lemma extOf_safeNewName opts info fileExt p :
  (exists e, fileExt = "."%char :: e /\ "."%char ∉ e) ->
  replaceReserved fileExt = fileExt ->
  path.extOf (safeNewName opts info fileExt p) = fileExt.
Proof.
  intros (e & -> & He) Hclean. rewrite safeNewName_ext, Hclean.
  set (X := replaceReserved _).
  assert (HX : (3 <= length X)%nat).
  { unfold X. rewrite replaceReserved_length, !length_app. cbn. lia. }
  apply extOf_app; [|done|].
  - intros HX0. rewrite HX0 in HX. cbn in HX. lia.
  - intros Hdd. apply (f_equal length) in Hdd. rewrite length_app in Hdd.
    cbn in Hdd. lia.
Qed.

Lemma Forall_properName_snoc dirs name n :
  Forall properName (dirs ++ [name]) -> properName n ->
  Forall properName (dirs ++ [n]).
Proof.
  intros Hall Hn. apply Forall_app in Hall as [Hdirs _].
  apply Forall_app. split; [done|]. by constructor.
Qed.

(** C6 (as amended): the planned path of a file of the walk lies in the
    directory of the file and differs from the path of the file, and its
    extension is the extension of the file in lower case (when that is not
    empty and holds no reserved character, as [.ipa]). *)
Theorem getNewFilePath_sibling (opts : Settings) (info : AppInfo)
    (originalPath newPath : jsstring) :
  walked originalPath ->
  toLowerCase (path.extname originalPath) <> [] ->
  replaceReserved (toLowerCase (path.extname originalPath))
    = toLowerCase (path.extname originalPath) ->
  getNewFilePath opts info (toLowerCase (path.extname originalPath)) originalPath
    = Some newPath ->
  path.dirname newPath = path.dirname originalPath
  /\ path.extname newPath = toLowerCase (path.extname originalPath)
  /\ newPath <> originalPath.
Proof.
  intros (dirs & name & Hall & ->) Hne Hclean.
  rewrite getNewFilePath_walked by done.
  case_bool_decide as Hsame; [done|]. intros [= <-].
  set (p := render (dirs ++ [name])) in *.
  set (fileExt := toLowerCase (path.extname p)) in *.
  pose proof (safeNewName_proper opts info fileExt p) as Hproper.
  pose proof (Forall_properName_snoc _ _ _ Hall Hproper) as Hall'.
  split; [|split].
  - unfold p. by rewrite !dirname_walked.
  - unfold path.extname at 1. rewrite lastPortion_walked by done.
    apply extOf_safeNewName; [|done]. by apply extname_lower_shape.
  - unfold p. by rewrite render_snoc_inj.
Qed.

Ltac proper_names :=
  repeat first [ apply Forall_nil_2 | apply Forall_cons_2 ];
  match goal with
  | |- properName ?n => apply (bool_decide_unpack (properName n)); vm_compute; exact I
  end.

Lemma walked_Game_IPA : walked (lit "/ipa/Game.IPA").
Proof.
  exists [lit "ipa"], (lit "Game.IPA"). split; [proper_names | reflexivity].
Qed.

(** C6 on a file [Game.IPA]: the planned name ends in [.ipa]. *)
Lemma getNewFilePath_sibling_witness :
  path.dirname (lit "/ipa/Game ↔ My App – [v2.1] [iOS 14.0].ipa")
    = path.dirname (lit "/ipa/Game.IPA")
  /\ path.extname (lit "/ipa/Game ↔ My App – [v2.1] [iOS 14.0].ipa")
     = toLowerCase (path.extname (lit "/ipa/Game.IPA"))
  /\ lit "/ipa/Game ↔ My App – [v2.1] [iOS 14.0].ipa" <> lit "/ipa/Game.IPA".
Proof.
  apply (getNewFilePath_sibling iOSIPARenamerSettings infoMyApp).
  - exact walked_Game_IPA.
  - discriminate.
  - reflexivity.
  - reflexivity.
Defined.

(** C6, as it is worded, fails on a file whose extension has capitals: the
    planned path does not keep the extension [.IPA]. *)
Lemma getNewFilePath_changes_extension_case :
  getNewFilePath iOSIPARenamerSettings infoMyApp
    (toLowerCase (path.extname (lit "/ipa/Game.IPA"))) (lit "/ipa/Game.IPA")
    = Some (lit "/ipa/Game ↔ My App – [v2.1] [iOS 14.0].ipa")
  /\ path.extname (lit "/ipa/Game.IPA") = lit ".IPA"
  /\ path.extname (lit "/ipa/Game ↔ My App – [v2.1] [iOS 14.0].ipa") = lit ".ipa".
Proof. repeat split; reflexivity. Qed.

(** C2 (as amended): for the manifest of the scenario and a file
    [game.ipa] of the walk, with the original name included, the planner
    returns the sibling [game ↔ My App – [v2.1] [iOS 14.0].ipa]: the version
    part begins with a space, which follows the dash. *)
Theorem getNewFilePath_game_ipa (dirs : list jsstring) :
  Forall properName dirs ->
  exists info,
    extractAppInfo manifestMyApp = Ok info
    /\ getNewFilePath iOSIPARenamerSettings info
         (toLowerCase (path.extname (render (dirs ++ [lit "game.ipa"]))))
         (render (dirs ++ [lit "game.ipa"]))
       = Some (render (dirs ++ [lit "game ↔ My App – [v2.1] [iOS 14.0].ipa"]))
    /\ path.basename
         (render (dirs ++ [lit "game ↔ My App – [v2.1] [iOS 14.0].ipa"])) []
       = lit "game ↔ My App – [v2.1] [iOS 14.0].ipa".
Proof.
  intros Hdirs. exists infoMyApp. split; [reflexivity|].
  assert (Hgame : properName (lit "game.ipa")) by proper_names.
  assert (Hnew : properName (lit "game ↔ My App – [v2.1] [iOS 14.0].ipa"))
    by proper_names.
  assert (Hall : Forall properName (dirs ++ [lit "game.ipa"])).
  { apply Forall_app. split; [done|]. by constructor. }
  assert (Hext : path.extname (render (dirs ++ [lit "game.ipa"])) = lit ".ipa").
  { unfold path.extname. by rewrite lastPortion_walked. }
  assert (Hsafe : safeNewName iOSIPARenamerSettings infoMyApp (lit ".ipa")
                    (render (dirs ++ [lit "game.ipa"]))
                  = lit "game ↔ My App – [v2.1] [iOS 14.0].ipa").
  { unfold safeNewName. rewrite Hext.
    pose proof (basename_extname (render (dirs ++ [lit "game.ipa"]))) as Hb.
    rewrite Hext, lastPortion_walked in Hb by done.
    change (lit "game.ipa") with (lit "game" ++ lit ".ipa") in Hb at 2.
    apply app_inv_tail in Hb. rewrite Hb. reflexivity. }
  split.
  - rewrite Hext. change (toLowerCase (lit ".ipa")) with (lit ".ipa").
    rewrite getNewFilePath_unfold. cbn zeta.
    rewrite Hsafe, join_dirname_walked by done.
    rewrite bool_decide_eq_false_2; [done|].
    rewrite !render_snoc. intros Heq. apply app_inv_head in Heq. discriminate.
  - cbn [path.basename]. by apply lastPortion_walked.
Qed.

(** C2 in the directory [/ipa]. *)
Lemma getNewFilePath_game_ipa_witness :
  exists info,
    extractAppInfo manifestMyApp = Ok info
    /\ getNewFilePath iOSIPARenamerSettings info
         (toLowerCase (path.extname (lit "/ipa/game.ipa"))) (lit "/ipa/game.ipa")
       = Some (lit "/ipa/game ↔ My App – [v2.1] [iOS 14.0].ipa")
    /\ path.basename (lit "/ipa/game ↔ My App – [v2.1] [iOS 14.0].ipa") []
       = lit "game ↔ My App – [v2.1] [iOS 14.0].ipa".
Proof.
  apply (getNewFilePath_game_ipa [lit "ipa"]). proper_names.
Defined.

(** C2, as it is worded, names a basename without the space after the
    dash; the planner does not return it. *)
Lemma getNewFilePath_game_ipa_space :
  extractAppInfo manifestMyApp = Ok infoMyApp
  /\ getNewFilePath iOSIPARenamerSettings infoMyApp
       (toLowerCase (path.extname (lit "/ipa/game.ipa"))) (lit "/ipa/game.ipa")
     = Some (lit "/ipa/game ↔ My App – [v2.1] [iOS 14.0].ipa")
  /\ path.basename (lit "/ipa/game ↔ My App – [v2.1] [iOS 14.0].ipa") []
     <> lit "game ↔ My App –[v2.1] [iOS 14.0].ipa".
Proof. split; [reflexivity|]. split; [reflexivity | discriminate]. Qed.

(** ** The loop *)

Lemma extractInfoFromIPA_located `{parsers : PlistParsers} fs p e :
  located fs p e -> extractInfoFromIPA fs p = readManifest e.
Proof.
  intros (entries & [Hf|Hf] & Hl); unfold extractInfoFromIPA; by rewrite Hf, Hl.
Qed.

Lemma renameFiles_cons `{parsers : PlistParsers} `{env : Environment}
    opts cfg filePath rest st :
  renameFiles opts cfg (filePath :: rest) st
  = st' ← processFile opts st filePath; renameFiles opts cfg rest st'.
Proof.
  unfold renameFiles. cbn [renameFiles_loop].
  by destruct (processFile opts st filePath).
Qed.

(** C9 (the code departs from it): when the stream of the manifest breaks
    after it is opened, when yauzl rejects a record before an entry
    matches, or when the parser returns nothing, an exception that nothing
    catches ends the run, whatever files remain.  The four failures that
    the program handles resolve to null: the loop counts the file as
    skipped, leaves the files and the count of renamed files as they are,
    and goes on with the remaining files. *)
Theorem unhandled_archive_error_ends_the_run `{parsers : PlistParsers}
    `{env : Environment} (opts : Settings) (cfg : ScanSettings) (st : State)
    (filePath : jsstring) (rest : list jsstring) :
  isFileSupported opts (toLowerCase (path.extname filePath)) = true ->
  (unhandledFailure (files st) filePath ->
     extractInfoFromIPA (files st) filePath = Throw
     /\ processFile opts st filePath = Throw
     /\ renameFiles opts cfg (filePath :: rest) st = Throw)
  /\ (archiveFailure (files st) filePath ->
      extractInfoFromIPA (files st) filePath = Ok None
      /\ processFile opts st filePath = Ok (skip MISSING_METADATA filePath st)
      /\ files (skip MISSING_METADATA filePath st) = files st
      /\ skippedFilesLength (skip MISSING_METADATA filePath st)
         = S (skippedFilesLength st)
      /\ renamedFilesLength (skip MISSING_METADATA filePath st)
         = renamedFilesLength st
      /\ renameFiles opts cfg (filePath :: rest) st
         = renameFiles opts cfg rest (skip MISSING_METADATA filePath st)
      /\ renameFiles opts cfg [filePath] st
         = Ok (mkState (renamedFilesLength st) (S (skippedFilesLength st))
                       (cleanup cfg (files st))
                       ((MISSING_METADATA, filePath) :: logs st))).
Proof.
  intros Hsup. split.
  - intros Hfail.
    assert (Hthrow : extractInfoFromIPA (files st) filePath = Throw).
    { destruct Hfail as [entries Hf Hl|e Hloc Hc|e buffer Hloc Hc Hp].
      - unfold extractInfoFromIPA. by rewrite Hf, Hl.
      - rewrite (extractInfoFromIPA_located _ _ _ Hloc). unfold readManifest.
        by rewrite Hc.
      - rewrite (extractInfoFromIPA_located _ _ _ Hloc). unfold readManifest.
        by rewrite Hc, Hp. }
    assert (Hstep : processFile opts st filePath = Throw).
    { unfold processFile. by rewrite Hsup, Hthrow. }
    repeat split; try done. by rewrite renameFiles_cons, Hstep.
  - intros Hfail.
    assert (Hnull : extractInfoFromIPA (files st) filePath = Ok None).
    { destruct Hfail as [Hf|Hf|entries Hf Hl|e Hloc Hc|e buffer Hloc Hc Hp].
      - unfold extractInfoFromIPA. by rewrite Hf.
      - unfold extractInfoFromIPA. by rewrite Hf.
      - unfold extractInfoFromIPA. by rewrite Hf, Hl.
      - rewrite (extractInfoFromIPA_located _ _ _ Hloc). unfold readManifest.
        by rewrite Hc.
      - rewrite (extractInfoFromIPA_located _ _ _ Hloc). unfold readManifest.
        by rewrite Hc, Hp. }
    assert (Hstep : processFile opts st filePath
                    = Ok (skip MISSING_METADATA filePath st)).
    { unfold processFile. by rewrite Hsup, Hnull. }
    repeat split; try done; by rewrite renameFiles_cons, Hstep.
Qed.

(** C9 on an archive whose manifest has corrupt deflate data, followed by
    the archive of the scenario: the run ends with the exception, and the
    second archive is not reached. *)
Lemma unhandled_archive_error_ends_the_run_witness :
  extractInfoFromIPA (parsers := parsersMyApp) filesBrokenAndGame
    (lit "/ipa/broken.ipa") = Throw
  /\ renameFiles (parsers := parsersMyApp) (env := envIpa) iOSIPARenamerSettings
       iOSIPARenamerScanSettings
       [lit "/ipa/broken.ipa"; lit "/ipa/game.ipa"] (startState filesBrokenAndGame)
     = Throw.
Proof.
  destruct (unhandled_archive_error_ends_the_run (parsers := parsersMyApp)
              (env := envIpa) iOSIPARenamerSettings iOSIPARenamerScanSettings
              (startState filesBrokenAndGame)
              (lit "/ipa/broken.ipa") [lit "/ipa/game.ipa"])
    as [Hends _]; [reflexivity|].
  destruct Hends as (H1 & _ & H3).
  - apply (StreamError _ _
             (mkEntry (lit "Payload/Game.app/Info.plist") Broken)); [|reflexivity].
    eexists. split; [left; reflexivity | reflexivity].
  - split; [exact H1 | exact H3].
Defined.

(** The same files with the archive that has no manifest in place of the
    broken one: the run goes on and renames the second archive. *)
Lemma handled_archive_failure_is_skipped :
  exists st',
    renameFiles (parsers := parsersMyApp) (env := envIpa) iOSIPARenamerSettings
      iOSIPARenamerScanSettings
      [lit "/ipa/flat.ipa"; lit "/ipa/game.ipa"] (startState filesFlatAndGame)
    = Ok st'
    /\ renamedFilesLength st' = 1%nat
    /\ skippedFilesLength st' = 1%nat
    /\ fst <$> logs st' = [RENAMED; MISSING_METADATA].
Proof.
  exists (match renameFiles (parsers := parsersMyApp) (env := envIpa)
                  iOSIPARenamerSettings iOSIPARenamerScanSettings
                  [lit "/ipa/flat.ipa"; lit "/ipa/game.ipa"]
                  (startState filesFlatAndGame)
          with Ok st' => st' | Throw => startState ∅ end).
  repeat split; vm_compute; reflexivity.
Qed.

(** Lower-casing twice is lower-casing once. *)
Lemma toLowerCase_idemp s : toLowerCase (toLowerCase s) = toLowerCase s.
Proof.
  unfold toLowerCase. rewrite map_map. apply map_ext. intros c.
  destruct c as [[] [] [] [] [] [] [] []]; reflexivity.
Qed.

(** X16: with INCLUDE_ORIGINAL_NAME off, the plan for a file the loop has
    named is null: this setting reaches the ALREADY_RENAMED branch. *)
Lemma getNewFilePath_after_rename_without_original_name opts info p newPath :
  INCLUDE_ORIGINAL_NAME opts = false ->
  walked p ->
  toLowerCase (path.extname p) <> [] ->
  replaceReserved (toLowerCase (path.extname p)) = toLowerCase (path.extname p) ->
  getNewFilePath opts info (toLowerCase (path.extname p)) p = Some newPath ->
  getNewFilePath opts info (toLowerCase (path.extname newPath)) newPath = None.
Proof.
  intros Hopt (dirs & name & Hall & ->) Hne Hclean.
  rewrite getNewFilePath_walked by done.
  case_bool_decide as Hsame; [done|]. intros [= <-].
  set (p := render (dirs ++ [name])) in *.
  set (fileExt := toLowerCase (path.extname p)) in *.
  pose proof (safeNewName_proper opts info fileExt p) as Hproper.
  pose proof (Forall_properName_snoc _ _ _ Hall Hproper) as Hall'.
  assert (Hext : path.extname (render (dirs ++ [safeNewName opts info fileExt p]))
                 = fileExt).
  { unfold path.extname at 1. rewrite lastPortion_walked by done.
    apply extOf_safeNewName; [|done]. by apply extname_lower_shape. }
  rewrite Hext. unfold fileExt at 1. rewrite toLowerCase_idemp. fold fileExt.
  rewrite getNewFilePath_walked by done.
  rewrite bool_decide_eq_true_2; [done|].
  unfold safeNewName. by rewrite Hopt.
Qed.

(** C1 (the code departs from it): with the settings of the program, the
    second run over the file that the first run renamed does not log
    ALREADY_RENAMED; it renames the file again, to a name that has the
    metadata twice.  With INCLUDE_ORIGINAL_NAME off the second run does log
    ALREADY_RENAMED and leaves the file. *)
Theorem second_run_renames_again :
  (exists st1 st2,
     renameFiles (parsers := parsersMyApp) (env := envIpa) iOSIPARenamerSettings
       iOSIPARenamerScanSettings
       [lit "/ipa/game.ipa"] (startState {[ lit "/ipa/game.ipa" := archiveMyApp ]})
       = Ok st1
     /\ files st1
        = {[ lit "/ipa/game ↔ My App – [v2.1] [iOS 14.0].ipa" := archiveMyApp ]}
     /\ renameFiles (parsers := parsersMyApp) (env := envIpa) iOSIPARenamerSettings
          iOSIPARenamerScanSettings
          [lit "/ipa/game ↔ My App – [v2.1] [iOS 14.0].ipa"] (startState (files st1))
        = Ok st2
     /\ renamedFilesLength st2 = 1%nat
     /\ skippedFilesLength st2 = 0%nat
     /\ fst <$> logs st2 = [RENAMED]
     /\ files st2
        = {[ lit "/ipa/game ↔ My App – [v2.1] [iOS 14.0] ↔ My App – [v2.1] [iOS 14.0].ipa"
               := archiveMyApp ]})
  /\ (exists st1 st2,
     renameFiles (parsers := parsersMyApp) (env := envIpa)
       (mkSettings false [lit ".ipa"]) iOSIPARenamerScanSettings
       [lit "/ipa/game.ipa"] (startState {[ lit "/ipa/game.ipa" := archiveMyApp ]})
       = Ok st1
     /\ files st1 = {[ lit "/ipa/My App – [v2.1] [iOS 14.0].ipa" := archiveMyApp ]}
     /\ renameFiles (parsers := parsersMyApp) (env := envIpa)
          (mkSettings false [lit ".ipa"]) iOSIPARenamerScanSettings
          [lit "/ipa/My App – [v2.1] [iOS 14.0].ipa"] (startState (files st1))
        = Ok st2
     /\ renamedFilesLength st2 = 0%nat
     /\ skippedFilesLength st2 = 1%nat
     /\ fst <$> logs st2 = [ALREADY_RENAMED]
     /\ files st2 = files st1).
Proof.
  pose (run := fun opts allFiles fs =>
                 match renameFiles (parsers := parsersMyApp) (env := envIpa) opts
                         iOSIPARenamerScanSettings allFiles (startState fs)
                 with
                 | Ok st => st
                 | Throw => startState fs
                 end).
  split.
  - pose (st1 := run iOSIPARenamerSettings [lit "/ipa/game.ipa"]
                   {[ lit "/ipa/game.ipa" := archiveMyApp ]}).
    exists st1,
      (run iOSIPARenamerSettings [lit "/ipa/game ↔ My App – [v2.1] [iOS 14.0].ipa"]
         (files st1)).
    repeat split; vm_compute; reflexivity.
  - pose (st1 := run (mkSettings false [lit ".ipa"]) [lit "/ipa/game.ipa"]
                   {[ lit "/ipa/game.ipa" := archiveMyApp ]}).
    exists st1,
      (run (mkSettings false [lit ".ipa"]) [lit "/ipa/My App – [v2.1] [iOS 14.0].ipa"]
         (files st1)).
    repeat split; vm_compute; reflexivity.
Qed.

(** In the loop, the exception of the extractor is raised in a callback
    that nothing guards: it ends the run before the files that follow. *)
Lemma numeric_name_ends_the_run :
  renameFiles
    (parsers := {| bplist_parseBuffer := fun _ => None;
                   plist_parse := fun _ => Some (PDict manifestNumericName) |})
    (env := envIpa) iOSIPARenamerSettings iOSIPARenamerScanSettings
    [lit "/ipa/odd.ipa"; lit "/ipa/game.ipa"]
    (startState {[ lit "/ipa/odd.ipa" := archiveMyApp;
                   lit "/ipa/game.ipa" := archiveMyApp ]})
  = Throw.
Proof. vm_compute. reflexivity. Qed.

(** ** The walk *)

Lemma walkDir_cons cfg dir entryName entry rest w :
  walkDir cfg dir (NDir (Some ((entryName, entry) :: rest))) w =
  if isDirectory entry && ignoredDirName cfg entryName
     || isFile entry && someIgnored (IGNORED_FILES cfg) entryName
  then walkDir cfg dir (NDir (Some rest)) w
  else if isDirectory entry
       then walkDir cfg dir (NDir (Some rest))
              (walkDir cfg (path.join dir entryName) entry w)
       else walkDir cfg dir (NDir (Some rest))
              (mkWalk (fileList w ++ [path.join dir entryName]) (unreadable w)).
Proof. reflexivity. Qed.

Lemma relFiles_cons cfg entryName entry rest :
  relFiles cfg (NDir (Some ((entryName, entry) :: rest))) =
  (if isDirectory entry && ignoredDirName cfg entryName
      || isFile entry && someIgnored (IGNORED_FILES cfg) entryName
   then []
   else if isDirectory entry then cons entryName <$> relFiles cfg entry
   else [[entryName]])
  ++ relFiles cfg (NDir (Some rest)).
Proof. reflexivity. Qed.

Lemma join_rootOf dirs n :
  Forall properName dirs -> properName n ->
  path.join (rootOf dirs) n = render (dirs ++ [n]).
Proof.
  intros Hdirs Hn.
  assert (Hall : Forall properName (dirs ++ [n])).
  { apply Forall_app. split; [done|]. by constructor. }
  rewrite <- (join_dirname_walked dirs n n Hall Hn).
  by rewrite dirname_walked.
Qed.

Lemma rootOf_snoc dirs n : rootOf (dirs ++ [n]) = render (dirs ++ [n]).
Proof. by destruct dirs. Qed.

(** The files the walk adds to the shared list: the files to list, in the
    order of the listings, behind the files that were there. *)
Lemma walkDir_fileList cfg node :
  properTree node ->
  forall dirs w,
    Forall properName dirs ->
    fileList (walkDir cfg (rootOf dirs) node w) =
    fileList w ++ ((fun segs => render (dirs ++ segs)) <$> relFiles cfg node).
Proof.
  induction node as [| | |entries IH] using FsNode_nested_ind;
    intros Hproper dirs w Hdirs; try (by cbn; rewrite app_nil_r).
  inversion Hproper as [| | |? Hentries _]; subst. clear Hproper.
  revert w. induction entries as [|[entryName entry] rest IHrest]; intros w.
  { by cbn; rewrite app_nil_r. }
  inversion IH as [|? ? IHentry IH']; subst.
  inversion Hentries as [|? ? [Hname Hentry] Hrest]; subst.
  cbn [fst snd] in IHentry, Hname, Hentry.
  rewrite walkDir_cons, relFiles_cons.
  destruct (_ || _).
  - by rewrite IHrest.
  - destruct (isDirectory entry).
    + rewrite IHrest by done. rewrite join_rootOf by done.
      rewrite <- rootOf_snoc, IHentry by (done || (apply Forall_app; split; [done|by constructor])).
      rewrite fmap_app, <- list_fmap_compose, app_assoc. f_equal. f_equal.
      apply list_fmap_ext. intros _ segs _. cbn. by rewrite <- app_assoc.
    + rewrite IHrest by done. cbn. rewrite join_rootOf by done.
      by rewrite <- app_assoc.
Qed.

Lemma nodeAt_cons_inv entries name segs node :
  nodeAt (NDir (Some entries)) (name :: segs) node ->
  exists child, (name, child) ∈ entries /\ nodeAt child segs node.
Proof. inversion 1; subst; eauto. Qed.

Lemma nodeAt_nil_inv node node' : nodeAt node [] node' -> node' = node.
Proof. by inversion 1. Qed.

(** The relative paths listed are the paths of the files to list. *)
Lemma relFiles_spec cfg node rel :
  rel ∈ relFiles cfg node <->
  exists segs name, rel = segs ++ [name] /\ toList cfg node segs name.
Proof.
  revert rel.
  induction node as [| | |entries IH] using FsNode_nested_ind; intros rel;
    try (split; [by intros ?%elem_of_nil|];
         intros (segs & name & -> & entry & Hat & _);
         destruct segs; inversion Hat).
  induction entries as [|[entryName entry] rest IHrest].
  { split; [by intros ?%elem_of_nil|].
    intros (segs & name & -> & e & Hat & _).
    destruct segs; apply nodeAt_cons_inv in Hat as (? & []%elem_of_nil & _). }
  inversion IH as [|? ? IHentry IH']; subst. cbn [snd] in IHentry.
  specialize (IHrest IH'). rewrite relFiles_cons, elem_of_app, IHrest.
  clear IHrest IH IH'. split.
  - intros [Hhere|(segs & name & -> & e & Hat & Hrest)].
    + destruct (_ || _) eqn:Hign; [by apply elem_of_nil in Hhere|].
      apply orb_false_iff in Hign as [Hd Hf].
      destruct (isDirectory entry) eqn:Hdir.
      * apply list_elem_of_fmap in Hhere as (rel' & -> & Hrel').
        apply IHentry in Hrel' as (segs & name & -> & e & Hat & Hnd & Hsegs & Hfile).
        exists (entryName :: segs), name. split; [done|]. exists e.
        split; [|split; [done|split; [|done]]].
        -- econstructor; [by left|done].
        -- constructor; [|done]. by destruct (ignoredDirName cfg entryName).
      * apply list_elem_of_singleton in Hhere as ->.
        exists [], entryName. split; [done|]. exists entry.
        split; [|split; [done|split; [done|]]].
        -- econstructor; [by left|constructor].
        -- intros Hfile. by rewrite Hfile in Hf.
    + exists segs, name. split; [done|]. exists e. split; [|done].
      destruct segs as [|s segs]; cbn in *;
        apply nodeAt_cons_inv in Hat as (child & Hin & Hat);
        econstructor; [by right|done|by right|done].
  - intros (segs & name & -> & e & Hat & Hnd & Hsegs & Hfile).
    destruct segs as [|s segs]; cbn in Hat;
      apply nodeAt_cons_inv in Hat as (child & Hin & Hat);
      apply elem_of_cons in Hin as [[= <- <-]|Hin].
    + apply nodeAt_nil_inv in Hat as ->. left.
      rewrite Hnd. cbn. destruct (isFile child) eqn:Hf.
      * rewrite Hfile by done. by left.
      * by left.
    + right. exists [], name. split; [done|]. exists e.
      split; [|done]. econstructor; [done|done].
    + left. inversion Hsegs as [|? ? Hs Hsegs']; subst.
      assert (Hdir : isDirectory child = true).
      { destruct segs; inversion Hat; done. }
      assert (Hf : isFile child = false) by by destruct child.
      rewrite Hdir, Hs, Hf. cbn.
      apply list_elem_of_fmap. exists (segs ++ [name]). split; [done|].
      apply IHentry. exists segs, name. split; [done|]. by exists e.
    + right. exists (s :: segs), name. split; [done|]. exists e.
      split; [|done]. econstructor; [done|done].
Qed.

Lemma relFiles_head cfg entries rel :
  rel ∈ relFiles cfg (NDir (Some entries)) ->
  exists name tl, rel = name :: tl /\ name ∈ (fst <$> entries).
Proof.
  induction entries as [|[entryName entry] rest IH]; [by intros ?%elem_of_nil|].
  rewrite relFiles_cons, elem_of_app. intros [Hhere|Hrest].
  - destruct (_ || _); [by apply elem_of_nil in Hhere|].
    destruct (isDirectory entry).
    + apply list_elem_of_fmap in Hhere as (tl & -> & _).
      exists entryName, tl. split; [done|]. by left.
    + apply list_elem_of_singleton in Hhere as ->.
      exists entryName, []. split; [done|]. by left.
  - destruct (IH Hrest) as (name & tl & -> & Hin).
    exists name, tl. split; [done|]. by right.
Qed.

Lemma relFiles_NoDup cfg node : properTree node -> NoDup (relFiles cfg node).
Proof.
  induction node as [| | |entries IH] using FsNode_nested_ind;
    intros Hproper; try by constructor.
  inversion Hproper as [| | |? Hentries Hnames]; subst. clear Hproper.
  induction entries as [|[entryName entry] rest IHrest]; [by constructor|].
  inversion IH as [|? ? IHentry IH']; subst.
  inversion Hentries as [|? ? [_ Hentry] Hrest]; subst.
  cbn in Hnames. apply NoDup_cons in Hnames as [Hfresh Hnames].
  cbn [snd] in *. rewrite relFiles_cons. apply NoDup_app. split; [|split].
  - destruct (_ || _); [by constructor|]. destruct (isDirectory entry).
    + apply NoDup_fmap_2; [|by apply IHentry]. by intros ?? [= ->].
    + apply NoDup_singleton.
  - intros rel Hhere Hin. apply relFiles_head in Hin as (name & tl & -> & Hin).
    destruct (_ || _); [by apply elem_of_nil in Hhere|].
    destruct (isDirectory entry).
    + by apply list_elem_of_fmap in Hhere as (tl' & [= -> ->] & _).
    + by apply list_elem_of_singleton in Hhere as [= -> ->].
  - by apply IHrest.
Qed.

Lemma nodeAt_proper node segs node' :
  properTree node -> nodeAt node segs node' ->
  Forall properName segs /\ properTree node'.
Proof.
  intros Hproper Hat. induction Hat as [|entries name child segs node' Hin _ IH];
    [by split|].
  inversion Hproper as [| | |? Hentries _]; subst.
  rewrite Forall_forall in Hentries. destruct (Hentries _ Hin) as [Hname Hchild].
  destruct (IH Hchild) as [Hsegs Hnode']. split; [by constructor|done].
Qed.

Lemma render_app_inj dirs l1 l2 :
  Forall properName (dirs ++ l1) -> Forall properName (dirs ++ l2) ->
  render (dirs ++ l1) = render (dirs ++ l2) -> l1 = l2.
Proof.
  intros H1 H2 Heq. apply (f_equal path.split) in Heq.
  rewrite !split_render in Heq by done. injection Heq as Heq.
  by apply app_inv_head in Heq.
Qed.

Lemma toList_proper cfg node segs name :
  properTree node -> toList cfg node segs name ->
  Forall properName (segs ++ [name]).
Proof. intros Hproper (entry & Hat & _). by apply (nodeAt_proper node _ entry). Qed.

(** X1: where the names in the tree and in the settings are of ASCII
    characters, the walk adds to the list exactly the entries that are no
    directories, lie below directories that are not ignored (by name,
    letter case apart, or by a leading dot) and, if regular files, have no
    ignored name; the paths that were in the list stay. *)
Theorem walkDir_lists_exactly (cfg : ScanSettings) (tree : FsNode)
    (dirs : list jsstring) (w : Walk) (p : jsstring) :
  asciiSettings cfg -> asciiTree tree ->
  properTree tree -> Forall properName dirs ->
  p ∈ fileList (walkDir cfg (rootOf dirs) tree w) <->
  p ∈ fileList w
  \/ exists segs name,
       p = render (dirs ++ segs ++ [name]) /\ toList cfg tree segs name.
Proof.
  intros _ _ Htree Hdirs. rewrite walkDir_fileList, elem_of_app by done.
  apply or_iff_compat_l. rewrite list_elem_of_fmap. split.
  - intros (rel & -> & Hrel). apply relFiles_spec in Hrel as (segs & name & -> & Hl).
    eauto.
  - intros (segs & name & -> & Hl). exists (segs ++ [name]). split; [done|].
    apply relFiles_spec. eauto.
Qed.

(** X2: from an absolute root, every path the walk lists is the root, the
    names of the directories entered and the name of the entry, each after
    a separator: a path as [walked] describes it. *)
Theorem walkDir_paths_walked (cfg : ScanSettings) (tree : FsNode)
    (dirs : list jsstring) :
  properTree tree -> Forall properName dirs ->
  Forall (fun p => walked p /\ exists rel, p = render dirs ++ render rel)
         (fileList (walkDir cfg (rootOf dirs) tree (mkWalk [] []))).
Proof.
  intros Htree Hdirs. rewrite walkDir_fileList by done. cbn [fileList app].
  apply Forall_fmap, Forall_forall. intros rel Hrel. cbn.
  apply relFiles_spec in Hrel as (segs & name & -> & Hl).
  pose proof (toList_proper _ _ _ _ Htree Hl) as Hrel.
  split.
  - exists (dirs ++ segs), name. rewrite <- app_assoc. split; [|done].
    apply Forall_app. by split.
  - exists (segs ++ [name]). unfold render. by rewrite fmap_app, concat_app.
Qed.

(** X3: the walk lists no path twice. *)
Theorem walkDir_NoDup (cfg : ScanSettings) (tree : FsNode) (dirs : list jsstring) :
  properTree tree -> Forall properName dirs ->
  NoDup (fileList (walkDir cfg (rootOf dirs) tree (mkWalk [] []))).
Proof.
  intros Htree Hdirs. rewrite walkDir_fileList by done. cbn [fileList app].
  apply NoDup_fmap_2_strong; [|by apply relFiles_NoDup].
  intros rel1 rel2 H1 H2 Heq.
  apply relFiles_spec in H1 as (segs1 & name1 & -> & Hl1).
  apply relFiles_spec in H2 as (segs2 & name2 & -> & Hl2).
  apply (render_app_inj dirs); [| |done];
    (apply Forall_app; split; [done|]); by eapply toList_proper.
Qed.

Lemma relUnreadable_cons cfg entryName entry rest :
  relUnreadable cfg (NDir (Some ((entryName, entry) :: rest))) =
  relUnreadable cfg (NDir (Some rest))
  ++ (if isDirectory entry && negb (ignoredDirName cfg entryName)
      then cons entryName <$> relUnreadable cfg entry
      else []).
Proof. reflexivity. Qed.

Lemma walkDir_unreadable cfg node :
  properTree node ->
  forall dirs w,
    Forall properName dirs ->
    unreadable (walkDir cfg (rootOf dirs) node w) =
    ((fun segs => rootOf (dirs ++ segs)) <$> relUnreadable cfg node)
    ++ unreadable w.
Proof.
  induction node as [| | |entries IH] using FsNode_nested_ind;
    intros Hproper dirs w Hdirs; try (by cbn; rewrite app_nil_r).
  inversion Hproper as [| | |? Hentries _]; subst. clear Hproper.
  revert w. induction entries as [|[entryName entry] rest IHrest]; intros w; [done|].
  inversion IH as [|? ? IHentry IH']; subst.
  inversion Hentries as [|? ? [Hname Hentry] Hrest]; subst.
  cbn [fst snd] in IHentry, Hname, Hentry.
  rewrite walkDir_cons, relUnreadable_cons.
  destruct (isDirectory entry) eqn:Hdir; cbn [andb orb].
  - destruct (ignoredDirName cfg entryName); cbn [negb orb].
    + rewrite IHrest by done. by rewrite app_nil_r.
    + assert (Hf : isFile entry = false) by by destruct entry.
      rewrite Hf. cbn [andb]. rewrite IHrest by done. rewrite join_rootOf by done.
      rewrite <- rootOf_snoc, IHentry
        by (done || (apply Forall_app; split; [done|by constructor])).
      rewrite fmap_app, <- list_fmap_compose, <- app_assoc. f_equal. f_equal.
      apply list_fmap_ext. intros _ segs _. cbn. by rewrite <- app_assoc.
  - rewrite app_nil_r. destruct (isFile entry && _); by rewrite IHrest.
Qed.

Lemma relUnreadable_spec cfg node segs :
  properTree node ->
  segs ∈ relUnreadable cfg node <->
  (segs = [] /\ (forall entries, node <> NDir (Some entries)))
  \/ (segs <> [] /\ toReport cfg node segs).
Proof.
  revert segs.
  induction node as [| | |entries IH] using FsNode_nested_ind; intros segs Hproper.
  1-3: cbn; rewrite list_elem_of_singleton; split;
    [ intros ->; by left
    | intros [[-> _]|[Hne [Hat _]]]; [done|]; destruct segs; [done|inversion Hat] ].
  inversion Hproper as [| | |? Hentries _]; subst. clear Hproper.
  induction entries as [|[entryName entry] rest IHrest].
  { split; [by intros ?%elem_of_nil|].
    intros [[_ Hno]|[Hne [Hat _]]]; [by destruct (Hno [])|].
    destruct segs; [done|].
    by apply nodeAt_cons_inv in Hat as (? & ?%elem_of_nil & _). }
  inversion IH as [|? ? IHentry IH']; subst. cbn [snd] in IHentry.
  inversion Hentries as [|? ? [_ Hentry] Hrest]; subst. cbn [snd] in Hentry.
  specialize (IHrest IH' Hrest).
  rewrite relUnreadable_cons, elem_of_app, IHrest. clear IHrest IH IH'. split.
  - intros [[[_ Hno]|[Hne [Hat Hsegs]]]|Hhere].
    + by destruct (Hno rest).
    + right. split; [done|]. split; [|done]. destruct segs as [|s segs]; [done|].
      apply nodeAt_cons_inv in Hat as (child & Hin & Hat).
      econstructor; [by right|done].
    + destruct (isDirectory entry && _) eqn:Hd; [|by apply elem_of_nil in Hhere].
      apply andb_true_iff in Hd as [Hdir Hign]. apply negb_true_iff in Hign.
      apply list_elem_of_fmap in Hhere as (segs' & -> & Hrel).
      right. split; [done|]. apply IHentry in Hrel; [|done].
      destruct Hrel as [[-> Hno]|[Hne [Hat Hsegs]]].
      * split; [|by constructor]. econstructor; [by left|].
        destruct entry as [| |[entries|]]; try done; [by destruct (Hno entries)|].
        constructor.
      * split; [|by constructor]. econstructor; [by left|done].
  - intros [[_ Hno]|[Hne [Hat Hsegs]]];
      [by destruct (Hno ((entryName, entry) :: rest))|].
    destruct segs as [|s segs]; [done|].
    apply nodeAt_cons_inv in Hat as (child & Hin & Hat).
    inversion Hsegs as [|? ? Hs Hsegs']; subst.
    apply elem_of_cons in Hin as [[= <- <-]|Hin].
    + right. assert (Hdir : isDirectory child = true).
      { inversion Hat; done. }
      rewrite Hdir, Hs. cbn. apply list_elem_of_fmap. exists segs. split; [done|].
      apply IHentry; [done|]. destruct segs as [|s' segs].
      * left. split; [done|]. apply nodeAt_nil_inv in Hat. by intros entries ->.
      * right. by split.
    + left. right. split; [done|]. split; [|done]. econstructor; [done|done].
Qed.

(** X4: a directory that the walk cannot list is logged by its path, and
    the walk goes on; nothing else is logged.  The root is logged when it
    is no directory that can be listed. *)
Theorem walkDir_reports_exactly (cfg : ScanSettings) (tree : FsNode)
    (dirs : list jsstring) (p : jsstring) :
  properTree tree -> Forall properName dirs ->
  p ∈ unreadable (walkDir cfg (rootOf dirs) tree (mkWalk [] [])) <->
  (p = rootOf dirs /\ forall entries, tree <> NDir (Some entries))
  \/ exists segs, segs <> [] /\ p = render (dirs ++ segs)
                  /\ toReport cfg tree segs.
Proof.
  intros Htree Hdirs. rewrite walkDir_unreadable by done. cbn [unreadable].
  rewrite app_nil_r, list_elem_of_fmap. split.
  - intros (segs & -> & Hrel). apply relUnreadable_spec in Hrel; [|done].
    destruct Hrel as [[-> Hno]|[Hne Hrep]].
    + left. by rewrite app_nil_r.
    + right. exists segs. split; [done|]. split; [|done].
      destruct segs; [done|]. by destruct dirs.
  - intros [[-> Hno]|(segs & Hne & -> & Hrep)].
    + exists []. rewrite app_nil_r. split; [done|].
      apply relUnreadable_spec; [done|]. by left.
    + exists segs. split; [destruct segs; [done|]; by destruct dirs|].
      apply relUnreadable_spec; [done|]. by right.
Qed.

Ltac proper_tree :=
  repeat match goal with
    | |- properTree (NDir (Some _)) => apply properTree_dir
    | |- properTree _ => constructor
    | |- Forall _ [] => apply Forall_nil_2
    | |- Forall _ (_ :: _) => apply Forall_cons_2
    | |- _ /\ _ => split
    | |- properName ?n =>
        apply (bool_decide_unpack (properName n)); vm_compute; exact I
    | |- NoDup ?l => apply (bool_decide_unpack (NoDup l)); vm_compute; exact I
    end.

Ltac pick_entry :=
  repeat first [ apply list_elem_of_here | apply list_elem_of_further ].

Lemma properTree_sampleTree : properTree sampleTree.
Proof. unfold sampleTree. proper_tree. Qed.

Ltac ascii_names :=
  repeat match goal with
    | |- asciiSettings _ => split
    | |- asciiTree (NDir (Some _)) => apply asciiTree_dir
    | |- asciiTree _ => constructor
    | |- asciiString ?s =>
        apply (bool_decide_unpack (Forall isAscii s)); vm_compute; exact I
    | |- Forall _ [] => apply Forall_nil_2
    | |- Forall _ (_ :: _) => apply Forall_cons_2
    | |- _ /\ _ => split
    end.

Lemma asciiTree_sampleTree : asciiTree sampleTree.
Proof. unfold sampleTree. ascii_names. Qed.

Lemma asciiSettings_default : asciiSettings iOSIPARenamerScanSettings.
Proof.
  split; cbn [iOSIPARenamerScanSettings IGNORED_DIRECTORIES IGNORED_FILES];
    ascii_names.
Qed.

(** The walk of the small tree: the name of a directory and of a regular
    file is compared without regard to letter case, and a link with an
    ignored name is listed. *)
Example walkDir_sampleTree :
  walkDir iOSIPARenamerScanSettings (rootOf [lit "ipa"]) sampleTree (mkWalk [] [])
  = mkWalk [lit "/ipa/game.ipa"; lit "/ipa/apps/a.IPA"; lit "/ipa/package.json"]
           [lit "/ipa/apps/locked"].
Proof. reflexivity. Qed.

(** X1 on the small tree. *)
Lemma walkDir_lists_exactly_witness :
  lit "/ipa/apps/a.IPA"
  ∈ fileList (walkDir iOSIPARenamerScanSettings (rootOf [lit "ipa"]) sampleTree
                (mkWalk [] [])).
Proof.
  apply (walkDir_lists_exactly iOSIPARenamerScanSettings sampleTree [lit "ipa"]);
    [exact asciiSettings_default | exact asciiTree_sampleTree
    | exact properTree_sampleTree | proper_names |].
  right. exists [lit "apps"], (lit "a.IPA"). split; [reflexivity|].
  exists NFile. split; [|split; [reflexivity|split; [|reflexivity]]].
  - eapply nodeAt_below; [pick_entry|].
    eapply nodeAt_below; [pick_entry|]. constructor.
  - by constructor.
Defined.

(** X2 on the small tree. *)
Lemma walkDir_paths_walked_witness :
  Forall (fun p => walked p /\ exists rel, p = render [lit "ipa"] ++ render rel)
    (fileList (walkDir iOSIPARenamerScanSettings (rootOf [lit "ipa"]) sampleTree
                 (mkWalk [] []))).
Proof.
  apply (walkDir_paths_walked iOSIPARenamerScanSettings sampleTree [lit "ipa"]);
    [exact properTree_sampleTree | proper_names].
Defined.

(** X3 on the small tree. *)
Lemma walkDir_NoDup_witness :
  NoDup (fileList (walkDir iOSIPARenamerScanSettings (rootOf [lit "ipa"])
                     sampleTree (mkWalk [] []))).
Proof.
  apply (walkDir_NoDup iOSIPARenamerScanSettings sampleTree [lit "ipa"]);
    [exact properTree_sampleTree | proper_names].
Defined.

(** X4 on the small tree. *)
Lemma walkDir_reports_exactly_witness :
  lit "/ipa/apps/locked"
  ∈ unreadable (walkDir iOSIPARenamerScanSettings (rootOf [lit "ipa"]) sampleTree
                  (mkWalk [] [])).
Proof.
  apply (walkDir_reports_exactly iOSIPARenamerScanSettings sampleTree [lit "ipa"]);
    [exact properTree_sampleTree | proper_names |].
  right. exists [lit "apps"; lit "locked"]. split; [done|]. split; [reflexivity|].
  split.
  - eapply nodeAt_below; [pick_entry|].
    eapply nodeAt_below; [pick_entry|]. constructor.
  - by repeat constructor.
Defined.

(** ** The loop, over any files *)

Lemma processFile_cases `{parsers : PlistParsers} `{env : Environment}
    opts st filePath st' :
  processFile opts st filePath = Ok st' ->
  (exists key, st' = skip key filePath st)
  \/ exists info newPath,
       isFileSupported opts (toLowerCase (path.extname filePath)) = true
       /\ extractInfoFromIPA (files st) filePath = Ok (Some info)
       /\ getNewFilePath opts info (toLowerCase (path.extname filePath)) filePath
          = Some newPath
       /\ st' = safeRenameFile st filePath newPath.
Proof.
  unfold processFile. destruct (isFileSupported _ _) eqn:Hsup; cbn [negb].
  - destruct (extractInfoFromIPA _ _) as [[info|]|] eqn:Hinfo; cbn; [| |done].
    + destruct (getNewFilePath _ _ _ _) as [newPath|] eqn:Hplan; intros [= <-].
      * right. eauto 10.
      * left. eauto.
    + intros [= <-]. left. eauto.
  - intros [= <-]. left. eauto.
Qed.

(** The two outcomes of [#safeRenameFile]: the file is moved, or the call
    of [fs.rename] fails and the file is skipped. *)
Lemma safeRenameFile_cases `{env : Environment} st filePath newPath :
  (exists f, files st !! filePath = Some f
             /\ rename_fails (files st) filePath newPath = false
             /\ files (safeRenameFile st filePath newPath)
                = <[newPath := f]> (delete filePath (files st))
             /\ renamedFilesLength (safeRenameFile st filePath newPath)
                = S (renamedFilesLength st)
             /\ skippedFilesLength (safeRenameFile st filePath newPath)
                = skippedFilesLength st
             /\ length (logs (safeRenameFile st filePath newPath))
                = S (length (logs st)))
  \/ ((files st !! filePath = None
       \/ rename_fails (files st) filePath newPath = true)
      /\ safeRenameFile st filePath newPath = skip ERROR_RENAMING filePath st).
Proof.
  unfold safeRenameFile, fsRename.
  destruct (files st !! filePath) as [f|]; cbn; [|right; eauto].
  destruct (rename_fails _ _ _) eqn:Hfails; cbn; [right; eauto | left; eauto 10].
Qed.

(** What [#renameFiles] returns: the counts and the lines of the loop, and
    the files of the loop after the cleanup. *)
Lemma renameFiles_Ok `{parsers : PlistParsers} `{env : Environment}
    opts cfg allFiles st st' :
  renameFiles opts cfg allFiles st = Ok st' ->
  exists st1,
    renameFiles_loop opts allFiles st = Ok st1
    /\ renamedFilesLength st' = renamedFilesLength st1
    /\ skippedFilesLength st' = skippedFilesLength st1
    /\ logs st' = logs st1
    /\ files st' = cleanup cfg (files st1).
Proof.
  unfold renameFiles. destruct (renameFiles_loop opts allFiles st) as [st1|]; [|done].
  intros [= <-]. by exists st1.
Qed.

Lemma deletePathRecursive_subseteq `{env : Environment} targetPath fs :
  deletePathRecursive targetPath fs ⊆ fs.
Proof. apply map_filter_subseteq. Qed.

Lemma cleanup_subseteq `{env : Environment} cfg fs : cleanup cfg fs ⊆ fs.
Proof.
  unfold cleanup. revert fs.
  induction (DELETE_ON_COMPLETE cfg) as [|entry entries IH]; intros fs; cbn; [done|].
  etrans; [apply IH | apply deletePathRecursive_subseteq].
Qed.

Lemma deletePathRecursive_outside `{env : Environment} targetPath fs p :
  inside targetPath p = false ->
  deletePathRecursive targetPath fs !! p = fs !! p.
Proof.
  intros Hout. unfold deletePathRecursive. rewrite map_lookup_filter.
  destruct (fs !! p) as [f|]; cbn; [|done].
  rewrite option_guard_True; [done|]. cbn. by rewrite Hout.
Qed.

(** The cleanup leaves what is neither at nor below one of its paths, the
    entries of DELETE_ON_COMPLETE joined to the root. *)
Lemma cleanup_outside `{env : Environment} cfg fs p :
  Forall (fun entry => inside (path.join rootPath entry) p = false)
         (DELETE_ON_COMPLETE cfg) ->
  cleanup cfg fs !! p = fs !! p.
Proof.
  unfold cleanup. revert fs.
  induction (DELETE_ON_COMPLETE cfg) as [|entry entries IH]; intros fs Hout; cbn;
    [done|].
  apply Forall_cons in Hout as [Hentry Hout].
  by rewrite IH, deletePathRecursive_outside.
Qed.

Lemma renameFiles_loop_counts `{parsers : PlistParsers} `{env : Environment}
    opts allFiles st st' :
  renameFiles_loop opts allFiles st = Ok st' ->
  (renamedFilesLength st' + skippedFilesLength st'
   = renamedFilesLength st + skippedFilesLength st + length allFiles)%nat
  /\ length (logs st') = (length (logs st) + length allFiles)%nat
  /\ (renamedFilesLength st <= renamedFilesLength st')%nat
  /\ (skippedFilesLength st <= skippedFilesLength st')%nat.
Proof.
  revert st. induction allFiles as [|filePath rest IH]; intros st; cbn.
  - intros [= <-]. lia.
  - destruct (processFile opts st filePath) as [st1|] eqn:Hstep; [|done]. cbn.
    intros Hrest. apply IH in Hrest.
    assert (Hone : (renamedFilesLength st1 + skippedFilesLength st1
                    = S (renamedFilesLength st + skippedFilesLength st)
                    /\ length (logs st1) = S (length (logs st))
                    /\ renamedFilesLength st <= renamedFilesLength st1
                    /\ skippedFilesLength st <= skippedFilesLength st1)%nat).
    { apply processFile_cases in Hstep
        as [[key ->]|(info & newPath & _ & _ & _ & ->)]; [cbn; lia|].
      destruct (safeRenameFile_cases st filePath newPath)
        as [(f & _ & _ & _ & -> & -> & ->)| [_ ->]]; cbn; lia. }
    lia.
Qed.

(** X5: when [#renameFiles] ends, every file of the list was counted once,
    as renamed or as skipped, and one line was logged for it. *)
Theorem renameFiles_counts `{parsers : PlistParsers} `{env : Environment}
    (opts : Settings) (cfg : ScanSettings)
    (allFiles : list jsstring) (st st' : State) :
  renameFiles opts cfg allFiles st = Ok st' ->
  (renamedFilesLength st' + skippedFilesLength st'
   = renamedFilesLength st + skippedFilesLength st + length allFiles)%nat
  /\ length (logs st') = (length (logs st) + length allFiles)%nat
  /\ (renamedFilesLength st <= renamedFilesLength st')%nat
  /\ (skippedFilesLength st <= skippedFilesLength st')%nat.
Proof.
  intros (st1 & Hloop & -> & -> & -> & _)%renameFiles_Ok.
  by eapply renameFiles_loop_counts.
Qed.

Lemma renameFiles_loop_no_new_content `{parsers : PlistParsers}
    `{env : Environment} opts allFiles st st' :
  renameFiles_loop opts allFiles st = Ok st' ->
  (forall p f, files st' !! p = Some f -> exists q, files st !! q = Some f)
  /\ (size (files st') <= size (files st))%nat.
Proof.
  revert st. induction allFiles as [|filePath rest IH]; intros st; cbn.
  - intros [= <-]. split; [eauto | lia].
  - destruct (processFile opts st filePath) as [st1|] eqn:Hstep; [|done]. cbn.
    intros Hrest. apply IH in Hrest as [Hcontent Hsize].
    assert (Hone : (forall p f, files st1 !! p = Some f ->
                                exists q, files st !! q = Some f)
                   /\ (size (files st1) <= size (files st))%nat).
    { apply processFile_cases in Hstep
        as [[key ->]|(info & newPath & _ & _ & _ & ->)]; [split; [eauto|done]|].
      destruct (safeRenameFile_cases st filePath newPath)
        as [(f & Hf & _ & -> & _)| [_ ->]]; [|split; [eauto|done]].
      split.
      - intros p g. rewrite lookup_insert. case_decide.
        + intros [= <-]. eauto.
        + rewrite lookup_delete. case_decide; [done|]. eauto.
      - pose proof (map_size_insert newPath f (delete filePath (files st))) as Hi.
        pose proof (map_size_delete filePath (files st)) as Hd.
        rewrite Hf in Hd.
        assert (Hpos : size (files st) <> 0%nat).
        { intros H0. apply map_size_empty_inv in H0. rewrite H0 in Hf.
          by rewrite lookup_empty in Hf. }
        destruct (delete filePath (files st) !! newPath); unfold id in Hi; lia. }
    destruct Hone as [Hc1 Hs1]. split; [|lia].
    intros p f Hp. destruct (Hcontent p f Hp) as [q Hq]. eauto.
Qed.

(** X6: [#renameFiles] makes no file and no content: what is at a path
    when it ends was at some path when it began, and the files are not
    more. *)
Theorem renameFiles_no_new_content `{parsers : PlistParsers} `{env : Environment}
    (opts : Settings) (cfg : ScanSettings)
    (allFiles : list jsstring) (st st' : State) :
  renameFiles opts cfg allFiles st = Ok st' ->
  (forall p f, files st' !! p = Some f -> exists q, files st !! q = Some f)
  /\ (size (files st') <= size (files st))%nat.
Proof.
  intros (st1 & Hloop & _ & _ & _ & ->)%renameFiles_Ok.
  apply renameFiles_loop_no_new_content in Hloop as [Hcontent Hsize].
  pose proof (cleanup_subseteq cfg (files st1)) as Hsub. split.
  - intros p f Hp. apply Hcontent with p. by eapply lookup_weaken.
  - apply map_subseteq_size in Hsub. lia.
Qed.

(** The extension of a planned path is the extension the planner was
    given. *)
Lemma planned_extension opts info filePath newPath :
  cleanExtensions opts ->
  isFileSupported opts (toLowerCase (path.extname filePath)) = true ->
  getNewFilePath opts info (toLowerCase (path.extname filePath)) filePath
    = Some newPath ->
  toLowerCase (path.extname newPath) = toLowerCase (path.extname filePath).
Proof.
  intros Hclean Hsup. unfold isFileSupported in Hsup.
  apply bool_decide_eq_true in Hsup. unfold cleanExtensions in Hclean.
  rewrite Forall_forall in Hclean. destruct (Hclean _ Hsup) as [Hne Hrr].
  rewrite getNewFilePath_unfold. cbn zeta. case_bool_decide; [done|].
  intros [= <-]. unfold path.extname at 1.
  rewrite lastPortion_join by apply safeNewName_proper.
  rewrite extOf_safeNewName; [apply toLowerCase_idemp | | done].
  by apply extname_lower_shape.
Qed.

Lemma renameFiles_loop_leaves_unsupported `{parsers : PlistParsers}
    `{env : Environment} opts allFiles st st' p :
  cleanExtensions opts ->
  isFileSupported opts (toLowerCase (path.extname p)) = false ->
  renameFiles_loop opts allFiles st = Ok st' ->
  files st' !! p = files st !! p.
Proof.
  intros Hclean Hp. revert st. induction allFiles as [|filePath rest IH];
    intros st; cbn.
  - by intros [= <-].
  - destruct (processFile opts st filePath) as [st1|] eqn:Hstep; [|done]. cbn.
    intros Hrest. rewrite (IH _ Hrest).
    apply processFile_cases in Hstep
      as [[key ->]|(info & newPath & Hsup & _ & Hplan & ->)]; [done|].
    destruct (safeRenameFile_cases st filePath newPath)
      as [(f & _ & _ & -> & _)| [_ ->]]; [|done].
    pose proof (planned_extension _ _ _ _ Hclean Hsup Hplan) as Hext.
    rewrite lookup_insert_ne, lookup_delete_ne; [done| |].
    + intros ->. congruence.
    + intros ->. rewrite Hext in Hp. congruence.
Qed.

(** X7: a file whose extension is not supported, and which is not among
    what the cleanup removes, is left as it is by [#renameFiles]: no rename
    moves it or puts another file in its place. *)
Theorem renameFiles_leaves_unsupported `{parsers : PlistParsers}
    `{env : Environment} (opts : Settings) (cfg : ScanSettings)
    (allFiles : list jsstring) (st st' : State) (p : jsstring) :
  cleanExtensions opts ->
  isFileSupported opts (toLowerCase (path.extname p)) = false ->
  Forall (fun entry => inside (path.join rootPath entry) p = false)
         (DELETE_ON_COMPLETE cfg) ->
  renameFiles opts cfg allFiles st = Ok st' ->
  files st' !! p = files st !! p.
Proof.
  intros Hclean Hp Hout (st1 & Hloop & _ & _ & _ & ->)%renameFiles_Ok.
  rewrite cleanup_outside by done.
  by eapply renameFiles_loop_leaves_unsupported.
Qed.

Lemma extractInfoFromIPA_ext `{parsers : PlistParsers} fs fs' p :
  fs !! p = fs' !! p -> extractInfoFromIPA fs p = extractInfoFromIPA fs' p.
Proof. intros Heq. unfold extractInfoFromIPA. by rewrite Heq. Qed.

Lemma extractInfoFromIPA_Some `{parsers : PlistParsers} fs p info :
  extractInfoFromIPA fs p = Ok (Some info) -> is_Some (fs !! p).
Proof.
  unfold extractInfoFromIPA. destruct (fs !! p); [eauto|done].
Qed.

(** X8: with INCLUDE_ORIGINAL_NAME off, two archives of one directory that
    have the same metadata and extension are planned to one path; where the
    system refuses neither rename, [#renameFiles] counts both as renamed,
    the second rename replaces the first archive, and its content is at no
    path any more. *)
Theorem renameFiles_same_metadata_overwrites `{parsers : PlistParsers}
    `{env : Environment} (opts : Settings) (cfg : ScanSettings) (info : AppInfo)
    (dirs : list jsstring) (n1 n2 fileExt t : jsstring) (st : State) :
  INCLUDE_ORIGINAL_NAME opts = false ->
  Forall properName (dirs ++ [n1]) -> properName n2 -> n1 <> n2 ->
  toLowerCase (path.extname (render (dirs ++ [n1]))) = fileExt ->
  toLowerCase (path.extname (render (dirs ++ [n2]))) = fileExt ->
  isFileSupported opts fileExt = true ->
  extractInfoFromIPA (files st) (render (dirs ++ [n1])) = Ok (Some info) ->
  extractInfoFromIPA (files st) (render (dirs ++ [n2])) = Ok (Some info) ->
  t = replaceReserved
        (appName info ++ lit " –" ++ version info ++ minIOS info ++ fileExt) ->
  t <> n1 -> t <> n2 ->
  (forall fs n, rename_fails fs (render (dirs ++ [n])) (render (dirs ++ [t])) = false) ->
  exists st' f2,
    renameFiles opts cfg [render (dirs ++ [n1]); render (dirs ++ [n2])] st = Ok st'
    /\ renamedFilesLength st' = S (S (renamedFilesLength st))
    /\ skippedFilesLength st' = skippedFilesLength st
    /\ files st !! render (dirs ++ [n2]) = Some f2
    /\ files st' =
       cleanup cfg
         (<[render (dirs ++ [t]) := f2]>
            (delete (render (dirs ++ [n2]))
               (delete (render (dirs ++ [n1])) (files st)))).
Proof.
  intros Hopt Hall1 Hn2 Hne Hext1 Hext2 Hsup Hinfo1 Hinfo2 Ht Ht1 Ht2 Hos.
  assert (Hall2 : Forall properName (dirs ++ [n2]))
    by by eapply Forall_properName_snoc.
  assert (Hsafe : forall p, safeNewName opts info fileExt p = t).
  { intros p. unfold safeNewName. by rewrite Hopt, Ht. }
  destruct (extractInfoFromIPA_Some _ _ _ Hinfo1) as [f1 Hf1].
  destruct (extractInfoFromIPA_Some _ _ _ Hinfo2) as [f2 Hf2].
  assert (Hp12 : render (dirs ++ [n1]) <> render (dirs ++ [n2]))
    by by rewrite render_snoc_inj.
  assert (Hpt2 : render (dirs ++ [t]) <> render (dirs ++ [n2]))
    by by rewrite render_snoc_inj.
  assert (Hpt1 : render (dirs ++ [t]) <> render (dirs ++ [n1]))
    by by rewrite render_snoc_inj.
  assert (Hstep : forall st0 n,
             Forall properName (dirs ++ [n]) -> t <> n ->
             toLowerCase (path.extname (render (dirs ++ [n]))) = fileExt ->
             extractInfoFromIPA (files st0) (render (dirs ++ [n])) = Ok (Some info) ->
             processFile opts st0 (render (dirs ++ [n]))
             = Ok (safeRenameFile st0 (render (dirs ++ [n])) (render (dirs ++ [t])))).
  { intros st0 n Hall Htn Hext Hinfo. unfold processFile.
    rewrite Hext, Hsup, Hinfo. cbn.
    rewrite getNewFilePath_walked, Hsafe by done.
    by rewrite bool_decide_eq_false_2. }
  set (st1 := safeRenameFile st (render (dirs ++ [n1])) (render (dirs ++ [t]))).
  assert (Hfiles1 : files st1
                    = <[render (dirs ++ [t]) := f1]>
                        (delete (render (dirs ++ [n1])) (files st))
                    /\ renamedFilesLength st1 = S (renamedFilesLength st)
                    /\ skippedFilesLength st1 = skippedFilesLength st).
  { unfold st1, safeRenameFile, fsRename. by rewrite Hf1, Hos. }
  destruct Hfiles1 as (Hfiles1 & Hr1 & Hs1).
  assert (Hf2' : files st1 !! render (dirs ++ [n2]) = Some f2).
  { by rewrite Hfiles1, lookup_insert_ne, lookup_delete_ne. }
  set (st2 := safeRenameFile st1 (render (dirs ++ [n2])) (render (dirs ++ [t]))).
  assert (Hloop : renameFiles_loop opts
                    [render (dirs ++ [n1]); render (dirs ++ [n2])] st = Ok st2).
  { cbn [renameFiles_loop]. rewrite (Hstep st n1) by done. cbn. fold st1.
    rewrite (Hstep st1 n2); [done..|].
    by rewrite (extractInfoFromIPA_ext _ (files st)) by by rewrite Hf2'. }
  assert (Hst2 : files st2
                 = <[render (dirs ++ [t]) := f2]>
                     (delete (render (dirs ++ [n2]))
                        (delete (render (dirs ++ [n1])) (files st)))
                 /\ renamedFilesLength st2 = S (S (renamedFilesLength st))
                 /\ skippedFilesLength st2 = skippedFilesLength st).
  { unfold st2, safeRenameFile, fsRename. rewrite Hf2', Hos. cbn.
    rewrite Hr1, Hs1, Hfiles1. split; [|done].
    apply map_eq. intros q. rewrite !lookup_insert. case_decide; [done|].
    rewrite !lookup_delete. case_decide; [done|].
    rewrite lookup_insert. case_decide; [done|]. by rewrite lookup_delete. }
  destruct Hst2 as (Hfiles2 & Hr2 & Hs2).
  eexists _, f2. unfold renameFiles. rewrite Hloop. cbn.
  split; [done|]. by rewrite Hr2, Hs2, Hfiles2.
Qed.

Ltac run_ok Hrun :=
  match goal with
  | |- exists st', ?run = Ok st' /\ _ =>
      let Hok := fresh "Hok" in
      assert (Hok : match run with Ok _ => true | Throw => false end = true)
        by (vm_compute; reflexivity);
      destruct run as [?st'|] eqn:Hrun; [|discriminate Hok];
      eexists; split; [reflexivity|]
  end.

(** X5 on a flat archive and the archive of the scenario. *)
Lemma renameFiles_counts_witness :
  exists st',
    renameFiles (parsers := parsersMyApp) (env := envIpa) iOSIPARenamerSettings
      iOSIPARenamerScanSettings
      [lit "/ipa/flat.ipa"; lit "/ipa/game.ipa"] (startState filesFlatAndGame)
    = Ok st'
    /\ (renamedFilesLength st' + skippedFilesLength st'
        = renamedFilesLength (startState filesFlatAndGame)
          + skippedFilesLength (startState filesFlatAndGame)
          + length [lit "/ipa/flat.ipa"; lit "/ipa/game.ipa"])%nat.
Proof.
  run_ok Hrun.
  apply (renameFiles_counts (parsers := parsersMyApp) (env := envIpa)
           iOSIPARenamerSettings iOSIPARenamerScanSettings
           [lit "/ipa/flat.ipa"; lit "/ipa/game.ipa"]
           (startState filesFlatAndGame)).
  exact Hrun.
Defined.

(** X6 on the archive of the scenario beside the files that the cleanup
    removes. *)
Lemma renameFiles_no_new_content_witness :
  exists st',
    renameFiles (parsers := parsersMyApp) (env := envIpa) iOSIPARenamerSettings
      iOSIPARenamerScanSettings
      [lit "/ipa/game.ipa"] (startState filesWithPackages)
    = Ok st'
    /\ (size (files st') <= size (files (startState filesWithPackages)))%nat.
Proof.
  run_ok Hrun.
  apply (renameFiles_no_new_content (parsers := parsersMyApp) (env := envIpa)
           iOSIPARenamerSettings iOSIPARenamerScanSettings
           [lit "/ipa/game.ipa"] (startState filesWithPackages)).
  exact Hrun.
Defined.

Lemma cleanExtensions_default : cleanExtensions iOSIPARenamerSettings.
Proof. repeat constructor. discriminate. Qed.

(** The cleanup after the loop, in the directory [/ipa]: what is at or
    below the three paths goes; a file of the same name in another
    directory, and a file whose name only begins like a path, stay. *)
Example renameFiles_cleans_up :
  exists st',
    renameFiles (parsers := parsersMyApp) (env := envIpa) iOSIPARenamerSettings
      iOSIPARenamerScanSettings
      [lit "/ipa/game.ipa"] (startState filesWithPackages)
    = Ok st'
    /\ size (files st') = 3%nat
    /\ files st' !! lit "/ipa/game ↔ My App – [v2.1] [iOS 14.0].ipa"
       = Some archiveMyApp
    /\ files st' !! lit "/ipa/apps/package.json" = Some Unreadable
    /\ files st' !! lit "/ipa/node_modules.txt" = Some Unreadable
    /\ files st' !! lit "/ipa/package.json" = None
    /\ files st' !! lit "/ipa/package-lock.json" = None
    /\ files st' !! lit "/ipa/node_modules/yauzl/index.js" = None
    /\ files st' !! lit "/ipa/node_modules/yauzl/package.json" = None.
Proof.
  exists (match renameFiles (parsers := parsersMyApp) (env := envIpa)
                  iOSIPARenamerSettings iOSIPARenamerScanSettings
                  [lit "/ipa/game.ipa"] (startState filesWithPackages)
          with Ok st' => st' | Throw => startState ∅ end).
  repeat split; vm_compute; reflexivity.
Qed.

(** X7 on a file of another directory that has the name of a file the
    cleanup removes. *)
Lemma renameFiles_leaves_unsupported_witness :
  exists st',
    renameFiles (parsers := parsersMyApp) (env := envIpa) iOSIPARenamerSettings
      iOSIPARenamerScanSettings
      [lit "/ipa/game.ipa"; lit "/ipa/apps/package.json"]
      (startState filesWithPackages)
    = Ok st'
    /\ files st' !! lit "/ipa/apps/package.json"
       = files (startState filesWithPackages) !! lit "/ipa/apps/package.json".
Proof.
  run_ok Hrun.
  apply (renameFiles_leaves_unsupported (parsers := parsersMyApp) (env := envIpa)
           iOSIPARenamerSettings iOSIPARenamerScanSettings
           [lit "/ipa/game.ipa"; lit "/ipa/apps/package.json"]
           (startState filesWithPackages));
    [exact cleanExtensions_default | reflexivity | | exact Hrun].
  repeat (apply Forall_cons_2; [vm_compute; reflexivity|]). apply Forall_nil_2.
Defined.

(** X8 on two archives with the metadata of the scenario. *)
Lemma renameFiles_same_metadata_overwrites_witness :
  exists st' f2,
    renameFiles (parsers := parsersMyApp) (env := envIpa) settingsWithoutOriginalName
      iOSIPARenamerScanSettings
      [render ([lit "ipa"] ++ [lit "one.ipa"]);
       render ([lit "ipa"] ++ [lit "two.ipa"])] (startState filesTwoGames)
    = Ok st'
    /\ renamedFilesLength st' = S (S (renamedFilesLength (startState filesTwoGames)))
    /\ skippedFilesLength st' = skippedFilesLength (startState filesTwoGames)
    /\ files (startState filesTwoGames) !! render ([lit "ipa"] ++ [lit "two.ipa"])
       = Some f2
    /\ files st' =
       cleanup (env := envIpa) iOSIPARenamerScanSettings
         (<[render ([lit "ipa"] ++ [lit "My App – [v2.1] [iOS 14.0].ipa"]) := f2]>
            (delete (render ([lit "ipa"] ++ [lit "two.ipa"]))
               (delete (render ([lit "ipa"] ++ [lit "one.ipa"]))
                  (files (startState filesTwoGames))))).
Proof.
  apply (renameFiles_same_metadata_overwrites (parsers := parsersMyApp)
           (env := envIpa) settingsWithoutOriginalName iOSIPARenamerScanSettings
           infoMyApp [lit "ipa"] (lit "one.ipa") (lit "two.ipa") (lit ".ipa")
           (lit "My App – [v2.1] [iOS 14.0].ipa") (startState filesTwoGames));
    first [ reflexivity | discriminate | proper_names | done ].
Defined.

(** ** The extractor, on any manifest *)

Lemma orString_nonempty name : orString name (lit "UnknownName") <> [].
Proof. by destruct name as [[|c s]|]. Qed.

(** X9: whatever the values of the manifest are, the metadata the
    extractor returns have a name that is not empty and holds no reserved
    character, a version that is empty or has the form [ [v...]], and a
    platform of the form [ [iOS ...]]. *)
Theorem extractAppInfo_shape (data : gmap string JsVal) (info : AppInfo) :
  extractAppInfo data = Ok info ->
  appName info <> []
  /\ (forall c, c ∈ reservedChars -> c ∉ appName info)
  /\ (version info = [] \/ exists v, version info = lit " [v" ++ v ++ lit "]")
  /\ (exists os, minIOS info = lit " [iOS " ++ os ++ lit "]").
Proof.
  unfold extractAppInfo.
  destruct (optReplace _) as [name|] eqn:Hname; [|done]. cbn [mbind Result_bind].
  set (rawVersion := _ ||| _ ||| JNull).
  destruct (if truthy rawVersion then _ else _) as [ver|] eqn:Hver; [|done].
  cbn [mbind Result_bind].
  destruct (toStr (_ ||| _)) as [os|]; [|done]. cbn. intros [= <-]. cbn.
  split; [apply orString_nonempty|]. split; [|split; [|eauto]].
  - intros c Hc. destruct name as [[|a s]|]; cbn.
    + intros Hin. revert Hc. apply list_elem_of_In in Hin. cbn in Hin.
      intros Hc. apply isReserved_spec in Hc.
      repeat (destruct Hin as [<-|Hin]; [discriminate Hc|]). done.
    + match type of Hname with optReplace ?v = _ => destruct v; try done end.
      injection Hname as Hname. rewrite <- Hname. by apply replaceReserved_clean.
    + intros Hin. revert Hc. apply list_elem_of_In in Hin. cbn in Hin.
      intros Hc. apply isReserved_spec in Hc.
      repeat (destruct Hin as [<-|Hin]; [discriminate Hc|]). done.
  - destruct (truthy rawVersion); [|left; by injection Hver].
    destruct (toStr rawVersion) as [v|]; [|done]. right. exists v.
    by injection Hver.
Qed.

(** X9 on a manifest whose name holds reserved characters. *)
Lemma extractAppInfo_shape_witness :
  lit "A B  C " <> []
  /\ (forall c, c ∈ reservedChars -> c ∉ lit "A B  C ")
  /\ (lit " [v1|2]" = [] \/ exists v, lit " [v1|2]" = lit " [v" ++ v ++ lit "]")
  /\ (exists os, lit " [iOS 0.0.0]" = lit " [iOS " ++ os ++ lit "]").
Proof.
  apply (extractAppInfo_shape manifestReservedName
           (mkAppInfo (lit "A B  C ") (lit " [v1|2]") (lit " [iOS 0.0.0]"))).
  reflexivity.
Defined.

Lemma optReplace_Throw v : optReplace v = Throw <-> hasNoReplace v.
Proof. destruct v; cbn; split; try done. Qed.

(** X10: the extractor raises in these cases and in no other: the first
    truthy value among the four name keys (the last of them when none is
    truthy) is a boolean, a number or an object; or the first truthy
    version, or the value of MinimumOSVersion, is an object whose
    conversion to a string raises. *)
Theorem extractAppInfo_throws_iff (data : gmap string JsVal) :
  extractAppInfo data = Throw <->
  hasNoReplace
    (firstTruthy [prop data "CFBundleDisplayName"; prop data "CFBundleName";
                  prop data "BundleDisplayName"]
       (prop data "UILocalizedDisplayName"))
  \/ firstTruthy [prop data "CFBundleShortVersionString";
                  prop data "CFBundleVersion"] JNull = JObj None
  \/ prop data "MinimumOSVersion" = JObj None.
Proof.
  unfold extractAppInfo. rewrite jsOr_firstTruthy4, jsOr_firstTruthy3.
  set (nameV := firstTruthy _ (prop data "UILocalizedDisplayName")).
  set (rawVersion := firstTruthy _ JNull).
  rewrite <- optReplace_Throw.
  destruct (optReplace nameV) as [name|]; [|by split; [left|]].
  cbn [mbind Result_bind].
  assert (Hver : (if truthy rawVersion
                  then toStr rawVersion ≫= λ v, mret (lit " [v" ++ v ++ lit "]")
                  else mret []) = Throw <-> rawVersion = JObj None).
  { destruct rawVersion as [| |[]|[]?|?|[?|]]; cbn; split; try done.
    case_bool_decide; done. }
  assert (Hos : toStr (prop data "MinimumOSVersion" ||| JStr (lit "0.0.0")) = Throw
                <-> prop data "MinimumOSVersion" = JObj None).
  { unfold jsOr. destruct (prop data "MinimumOSVersion") as [| |[]|[]?|s|[?|]];
      cbn; split; try done. case_bool_decide; done. }
  destruct (if truthy rawVersion then _ else _) as [ver|].
  - cbn [mbind Result_bind].
    destruct (toStr (_ ||| _)) as [os|]; cbn.
    + split; [done|]. intros [?|[?%Hver|?%Hos]]; done.
    + split; [|done]. intros _. right. right. by apply Hos.
  - split; [|done]. intros _. right. left. by apply Hver.
Qed.

(** ** The logger *)

Lemma matches_digitOrSemicolon s :
  matches digitOrSemicolon s <-> exists c, s = [c] /\ c ∈ lit "0123456789;".
Proof.
  unfold digitOrSemicolon. generalize (lit "0123456789;"). intros cls.
  induction cls as [|a cls IH]; cbn.
  - split; [inversion 1|]. by intros (c & _ & ?%elem_of_nil).
  - split.
    + intros [Hm|Hm]%matches_Alt_inv.
      * inversion Hm; subst. exists a. split; [done|by left].
      * apply IH in Hm as (c & -> & Hc). exists c. split; [done|by right].
    + intros (c & -> & [->|Hc]%elem_of_cons).
      * apply MAltL. constructor.
      * apply MAltR, IH. eauto.
Qed.

Lemma matches_Star_digitOrSemicolon s :
  matches (Star digitOrSemicolon) s <-> Forall (fun c => c ∈ lit "0123456789;") s.
Proof.
  split.
  - intros Hm. remember (Star digitOrSemicolon) as r eqn:Hr.
    induction Hm; try discriminate; [constructor|].
    injection Hr as ->. apply matches_digitOrSemicolon in Hm1 as (c & -> & Hc).
    constructor; [done|by apply IHHm2].
  - induction 1 as [|c s Hc _ IH]; [constructor|].
    change (c :: s) with ([c] ++ s). constructor; [|done].
    apply matches_digitOrSemicolon. eauto.
Qed.

(** The strings that [saveToLogs] takes for the format of a colour. *)
Lemma colourPattern_spec s :
  testWhole colourPattern s = true <->
  exists code, s = colourFormat code
               /\ Forall (fun c => c ∈ lit "0123456789;") code.
Proof.
  unfold testWhole. rewrite accepts_matches. unfold colourPattern, colourFormat.
  split.
  - intros Hm. apply matches_Cat_inv in Hm as (s1 & s2 & -> & H1 & H2).
    apply matches_Cat_inv in H2 as (s3 & s4 & -> & H3 & H4).
    apply matches_Lit in H1 as ->. apply matches_Lit in H4 as ->.
    apply matches_Star_digitOrSemicolon in H3. exists s3.
    by split.
  - intros (code & -> & Hcode).
    constructor; [by apply matches_Lit|].
    change (code ++ lit "m%s" ++ [esc] ++ lit "[0m")
      with (code ++ (lit "m%s" ++ [esc] ++ lit "[0m")).
    constructor; [by apply matches_Star_digitOrSemicolon | by apply matches_Lit].
Qed.

Lemma colourPattern_head s :
  testWhole colourPattern s = true -> exists t, s = esc :: t.
Proof. intros (code & -> & _)%colourPattern_spec. by eexists. Qed.

(** X12: each of the five colour functions adds to the log text the
    message and a line feed, never its own format; a message that has
    itself the form of a colour format (the escape character, a bracket,
    digits and semicolons, [m%s], the escape character, [[0m]) is left
    out, and no other string is. *)
Theorem colour_functions_save_the_message (message : LogArg) (logText : jsstring) :
  Forall (fun colour =>
            colour message logText =
            match message with
            | ArgString s =>
                if testWhole colourPattern s then logText
                else logText ++ s ++ [newline]
            | ArgOther shown => logText ++ shown ++ [newline]
            end)
         [cyan; green; yellow; red; magenta]
  /\ forall s,
       testWhole colourPattern s = true <->
       exists code, s = colourFormat code
                    /\ Forall (fun c => c ∈ lit "0123456789;") code.
Proof.
  split; [|apply colourPattern_spec].
  assert (Hformat : forall code,
             Forall (fun c => c ∈ lit "0123456789;") code ->
             testWhole colourPattern (colourFormat code) = true).
  { intros code Hcode. apply colourPattern_spec. eauto. }
  repeat apply Forall_cons_2; [..|apply Forall_nil_2];
    unfold cyan, green, yellow, red, magenta, log; cbn [saveToLogs fold_left];
    (rewrite Hformat by (repeat constructor)); cbn [negb];
    (destruct message as [s|shown]; [by destruct (testWhole colourPattern s)|done]).
Qed.

Lemma not_colourFormat c s : c <> esc -> testWhole colourPattern (c :: s) = false.
Proof.
  intros Hc. destruct (testWhole colourPattern (c :: s)) eqn:Ht; [|done].
  apply colourPattern_head in Ht as [t [= -> _]]. done.
Qed.

Lemma colour_text s logText :
  testWhole colourPattern s = false ->
  green (ArgString s) logText = logText ++ s ++ [newline]
  /\ red (ArgString s) logText = logText ++ s ++ [newline]
  /\ yellow (ArgString s) logText = logText ++ s ++ [newline].
Proof. intros Hs. cbn. by rewrite Hs. Qed.

(** X13: a line that the program logs for a file is in the log text
    whatever the path is: the line of a success and of an error begin with
    their icon, and so does the line of a warning when its icon does not
    begin with the escape character. *)
Theorem file_lines_are_saved (language : Language) (key filePath : jsstring)
    (logText : jsstring) :
  logSuccess language key filePath logText
    = logText ++ lit "✅ " ++ L10n_get language key ++ lit ": " ++ filePath
      ++ [newline]
  /\ (forall errMessage,
       logError language key filePath errMessage logText
       = logText ++ lit "⛔ " ++ L10n_get language key ++ lit ": " ++ filePath
         ++ match errMessage with
            | Some ((_ :: _) as m) => lit ":" ++ [newline] ++ m
            | _ => []
            end ++ [newline])
  /\ (forall icon,
       (forall t, icon <> esc :: t) ->
       logWarning language key filePath icon logText
       = logText ++ icon ++ lit " " ++ L10n_get language key ++ lit ": "
         ++ filePath ++ [newline]).
Proof.
  split; [|split].
  - unfold logSuccess.
    assert (Hno : testWhole colourPattern
                    (lit "✅ " ++ L10n_get language key ++ lit ": " ++ filePath)
                  = false) by by apply not_colourFormat.
    rewrite (proj1 (colour_text _ _ Hno)). by rewrite <- !app_assoc.
  - intros errMessage. unfold logError. cbn zeta.
    set (message := match errMessage with Some (_ :: _ as m) => _ | _ => [] end).
    assert (Hno : testWhole colourPattern
                    (lit "⛔ " ++ L10n_get language key ++ lit ": " ++ filePath
                     ++ message)
                  = false) by by apply not_colourFormat.
    rewrite (proj1 (proj2 (colour_text _ _ Hno))). by rewrite <- !app_assoc.
  - intros icon Hicon. unfold logWarning.
    assert (Hno : testWhole colourPattern
                    (icon ++ lit " " ++ L10n_get language key ++ lit ": " ++ filePath)
                  = false).
    { destruct icon as [|c icon]; [by apply not_colourFormat|].
      apply not_colourFormat. intros ->. by eapply Hicon. }
    rewrite (proj2 (proj2 (colour_text _ _ Hno))). by rewrite <- !app_assoc.
Qed.

(** ** Localization *)

(** X14: for each of the eleven keys and both languages, [L10n.get]
    returns the text of the table, which is not empty and not the key; for
    every other string it returns the string itself.  The language is
    Russian when the locale begins with [ru], and English otherwise, also
    without a locale. *)
Theorem L10n_get_spec (language : Language) :
  (forall key, key ∈ L10nKeys ->
     exists tr, Translations !! key = Some tr
                /\ L10n_get language key
                   = match language with ru => tr.1 | en => tr.2 end
                /\ L10n_get language key <> []
                /\ L10n_get language key <> key)
  /\ (forall key, key ∉ L10nKeys -> L10n_get language key = key)
  /\ (forall key : LogKey, keyName key ∈ L10nKeys)
  /\ (forall locale,
       languageOf locale = ru <->
       exists t, locale = Some ("r"%char :: "u"%char :: t)).
Proof.
  split; [|split; [|split]].
  - intros key Hkey. unfold L10nKeys in Hkey.
    repeat (apply elem_of_cons in Hkey as [->|Hkey]);
      [..|by apply elem_of_nil in Hkey];
      (eexists; split; [vm_compute; reflexivity|]);
      destruct language;
      (split; [vm_compute; reflexivity|]); split; vm_compute; discriminate.
  - intros key Hkey. unfold L10n_get.
    destruct (Translations !! key) as [tr|] eqn:Htr; [|by destruct key].
    destruct Hkey. apply (elem_of_dom_2 (D := gset jsstring)) in Htr.
    revert Htr. unfold Translations. rewrite dom_list_to_map_L.
    intros Htr%elem_of_list_to_set. apply Htr.
  - intros []; unfold L10nKeys; cbn; pick_entry.
  - intros locale. unfold languageOf, startsWith. split.
    + case_bool_decide as Hru; [|done]. intros _.
      destruct locale as [[|c1 [|c2 t]]|]; try done.
      injection Hru as -> ->. eauto.
    + by intros [t ->].
Qed.

(** ** The time of the run *)

Example formatPerformance_examples :
  formatPerformance <$> [0; 7; 1000; 59999; 60000; 3599999; 3600000; 45296789; -1]%Z
  = [lit "0 (ms)"; lit "7 (ms)"; lit "1:000 (s:ms)"; lit "59:999 (s:ms)";
     lit "01.00:000 (m.s:ms)"; lit "59.59:999 (m.s:ms)";
     lit "01.00.00:000 (h.m.s:ms)"; lit "12.34.56:789 (h.m.s:ms)";
     lit "-1.-1.-1:0-1 (h.m.s:ms)"].
Proof. reflexivity. Qed.

Lemma showUint_digits d : Forall isDigit (showUint d).
Proof.
  induction d; cbn; constructor; try done; unfold isDigit; cbn; pick_entry.
Qed.

Lemma uintOf_showUint d : uintOf (showUint d) = Some d.
Proof. induction d; cbn; rewrite ?IHd; done. Qed.

Lemma String_ofZ_nonneg n :
  (0 <= n)%Z -> exists d, String_ofZ n = showUint d /\ Z.of_uint d = n.
Proof.
  intros Hn. unfold String_ofZ. pose proof (DecimalZ.of_to n) as Hof.
  destruct n as [|p|p]; [| |lia].
  - by exists (Decimal.D0 Decimal.Nil).
  - cbn in *. eauto.
Qed.

Lemma padStart_digits len n : (0 <= n)%Z -> Forall isDigit (padStart len (String_ofZ n)).
Proof.
  intros (d & -> & _)%String_ofZ_nonneg. apply Forall_app. split.
  - apply Forall_replicate. unfold isDigit. cbn. pick_entry.
  - apply showUint_digits.
Qed.

Lemma String_ofZ_digits n : (0 <= n)%Z -> Forall isDigit (String_ofZ n).
Proof.
  intros (d & -> & _)%String_ofZ_nonneg. apply showUint_digits.
Qed.

(** A padded number writes the number. *)
Lemma valueOf_padStart len n :
  (0 <= n)%Z -> valueOf (padStart len (String_ofZ n)) = Some n.
Proof.
  intros (d & -> & <-)%String_ofZ_nonneg. unfold padStart, valueOf.
  induction (len - length (showUint d))%nat as [|k IH]; cbn.
  - by rewrite uintOf_showUint.
  - destruct (uintOf (replicate k "0"%char ++ showUint d)) as [d'|]; [|done].
    cbn in *. by injection IH as <-.
Qed.

Lemma valueOf_String_ofZ n : (0 <= n)%Z -> valueOf (String_ofZ n) = Some n.
Proof.
  intros Hn. rewrite <- (valueOf_padStart 0 n Hn). by unfold padStart.
Qed.

Lemma split_at_unique (c : ascii) x y x' y' :
  c ∉ x -> c ∉ x' -> x ++ c :: y = x' ++ c :: y' -> x = x' /\ y = y'.
Proof.
  revert x'. induction x as [|a x IH]; intros [|a' x'] Hx Hx'; cbn.
  - by intros [= ->].
  - intros [= <- _]. by apply not_elem_of_cons in Hx' as [? _].
  - intros [= -> _]. by apply not_elem_of_cons in Hx as [? _].
  - intros [= -> Heq]. apply not_elem_of_cons in Hx as [_ Hx].
    apply not_elem_of_cons in Hx' as [_ Hx'].
    destruct (IH x' Hx Hx' Heq) as [-> ->]. done.
Qed.

Lemma isDigit_not c s : ~ isDigit c -> Forall isDigit s -> c ∉ s.
Proof.
  intros Hc Hs Hin. rewrite Forall_forall in Hs. by apply Hc, Hs.
Qed.

Lemma not_digit_dot : ~ isDigit "."%char.
Proof. unfold isDigit. cbn. intros H. by repeat apply elem_of_cons in H as [?|H]; [..|apply elem_of_nil in H]. Qed.

Lemma not_digit_colon : ~ isDigit ":"%char.
Proof. unfold isDigit. cbn. intros H. by repeat apply elem_of_cons in H as [?|H]; [..|apply elem_of_nil in H]. Qed.

Lemma not_digit_space : ~ isDigit " "%char.
Proof. unfold isDigit. cbn. intros H. by repeat apply elem_of_cons in H as [?|H]; [..|apply elem_of_nil in H]. Qed.

Ltac flat_text := repeat (rewrite <- app_assoc || rewrite <- app_comm_cons).

(** The fields of a time that is not negative, and the text for them. *)
Lemma formatPerformance_nonneg ms :
  (0 <= ms)%Z ->
  exists h m s r : Z,
    (0 <= h /\ 0 <= m /\ 0 <= s /\ 0 <= r
     /\ ms = 3600000 * h + 60000 * m + 1000 * s + r)%Z
    /\ ((h <> 0%Z
         /\ formatPerformance ms =
            (padStart 2 (String_ofZ h) ++ "."%char :: padStart 2 (String_ofZ m)
             ++ "."%char :: padStart 2 (String_ofZ s)
             ++ ":"%char :: padStart 3 (String_ofZ r))
            ++ " "%char :: lit "(h.m.s:ms)")
        \/ (h = 0%Z /\ m <> 0%Z
            /\ formatPerformance ms =
               (padStart 2 (String_ofZ m) ++ "."%char :: padStart 2 (String_ofZ s)
                ++ ":"%char :: padStart 3 (String_ofZ r))
               ++ " "%char :: lit "(m.s:ms)")
        \/ (h = 0%Z /\ m = 0%Z /\ s <> 0%Z
            /\ formatPerformance ms =
               (String_ofZ s ++ ":"%char :: padStart 3 (String_ofZ r))
               ++ " "%char :: lit "(s:ms)")
        \/ (h = 0%Z /\ m = 0%Z /\ s = 0%Z
            /\ formatPerformance ms = String_ofZ r ++ " "%char :: lit "(ms)")).
Proof.
  intros Hms. unfold formatPerformance.
  set (h := (ms / 3600000)%Z). set (r1 := Z.rem ms 3600000).
  set (m := (r1 / 60000)%Z). set (r2 := Z.rem r1 60000).
  set (s := (r2 / 1000)%Z). set (r := Z.rem r2 1000).
  assert (Hr1 : r1 = (ms mod 3600000)%Z) by (apply Z.rem_mod_nonneg; lia).
  assert (H1 : (0 <= r1)%Z) by (rewrite Hr1; apply Z.mod_pos_bound; lia).
  assert (Hr2 : r2 = (r1 mod 60000)%Z) by (apply Z.rem_mod_nonneg; lia).
  assert (H2 : (0 <= r2)%Z) by (rewrite Hr2; apply Z.mod_pos_bound; lia).
  assert (Hr : r = (r2 mod 1000)%Z) by (apply Z.rem_mod_nonneg; lia).
  assert (H3 : (0 <= r)%Z) by (rewrite Hr; apply Z.mod_pos_bound; lia).
  exists h, m, s, r. split.
  - pose proof (Z.div_mod ms 3600000 ltac:(lia)) as E1.
    pose proof (Z.div_mod r1 60000 ltac:(lia)) as E2.
    pose proof (Z.div_mod r2 1000 ltac:(lia)) as E3.
    pose proof (Z.div_pos ms 3600000 Hms ltac:(lia)).
    pose proof (Z.div_pos r1 60000 H1 ltac:(lia)).
    pose proof (Z.div_pos r2 1000 H2 ltac:(lia)).
    fold h in E1. fold m in E2. fold s in E3.
    rewrite <- Hr1 in E1. rewrite <- Hr2 in E2. rewrite <- Hr in E3.
    fold h m s in H, H0, H4. lia.
  - destruct (Z.eqb_spec h 0); cbn [negb];
      [|left; split; [done|]; by flat_text].
    destruct (Z.eqb_spec m 0); cbn [negb];
      [|right; left; split; [done|]; split; [done|]; by flat_text].
    destruct (Z.eqb_spec s 0); cbn [negb];
      [|right; right; left; repeat split; try done; by flat_text].
    right. right. right. by repeat split.
Qed.

Ltac no_char :=
  repeat first
    [ apply isDigit_not;
      [ first [apply not_digit_dot | apply not_digit_colon | apply not_digit_space]
      | first [apply padStart_digits | apply String_ofZ_digits]; lia ]
    | apply not_elem_of_app; split
    | apply not_elem_of_cons; split; [done|] ].

Ltac same_number H :=
  first [ apply (f_equal valueOf) in H; rewrite !valueOf_padStart in H by lia
        | apply (f_equal valueOf) in H; rewrite !valueOf_String_ofZ in H by lia ];
  injection H as H.

(** X15: the text of the time of a run tells the time: two times that are
    not negative and differ are written differently. *)
Theorem formatPerformance_inj (a b : Z) :
  (0 <= a)%Z -> (0 <= b)%Z ->
  formatPerformance a = formatPerformance b -> a = b.
Proof.
  intros Ha Hb Heq.
  destruct (formatPerformance_nonneg a Ha)
    as (h & m & s & r & (Hh & Hm & Hs & Hr & ->) & Hfa).
  destruct (formatPerformance_nonneg b Hb)
    as (h' & m' & s' & r' & (Hh' & Hm' & Hs' & Hr' & ->) & Hfb).
  destruct Hfa as [(Hc & Hfa)|[(Hc1 & Hc & Hfa)|[(Hc1 & Hc2 & Hc & Hfa)
                   |(Hc1 & Hc2 & Hc & Hfa)]]];
    destruct Hfb as [(Hd & Hfb)|[(Hd1 & Hd & Hfb)|[(Hd1 & Hd2 & Hd & Hfb)
                     |(Hd1 & Hd2 & Hd & Hfb)]]];
    rewrite Hfa, Hfb in Heq;
    (apply (split_at_unique " "%char) in Heq as [Hbody Htag]; [|no_char..]).
  all: try discriminate Htag.
  all: clear Htag Hfa Hfb.
  - apply (split_at_unique "."%char) in Hbody as [E1 Hbody]; [|no_char..].
    apply (split_at_unique "."%char) in Hbody as [E2 Hbody]; [|no_char..].
    apply (split_at_unique ":"%char) in Hbody as [E3 E4]; [|no_char..].
    same_number E1. same_number E2. same_number E3. same_number E4. lia.
  - apply (split_at_unique "."%char) in Hbody as [E2 Hbody]; [|no_char..].
    apply (split_at_unique ":"%char) in Hbody as [E3 E4]; [|no_char..].
    same_number E2. same_number E3. same_number E4. lia.
  - apply (split_at_unique ":"%char) in Hbody as [E3 E4]; [|no_char..].
    same_number E3. same_number E4. lia.
  - same_number Hbody. lia.
Qed.

(** X15 on a minute, written in two ways. *)
Lemma formatPerformance_inj_witness :
  formatPerformance 60000 = lit "01.00:000 (m.s:ms)" /\ 60000%Z = (60 * 1000)%Z.
Proof.
  split; [reflexivity|].
  apply (formatPerformance_inj 60000 (60 * 1000)); [lia | lia | reflexivity].
Defined.

(** X16 on the file [game.ipa]: once it is named after its metadata, the
    plan for the new name is null. *)
Lemma getNewFilePath_after_rename_without_original_name_witness :
  getNewFilePath settingsWithoutOriginalName infoMyApp
    (toLowerCase (path.extname (lit "/ipa/My App – [v2.1] [iOS 14.0].ipa")))
    (lit "/ipa/My App – [v2.1] [iOS 14.0].ipa")
  = None.
Proof.
  apply (getNewFilePath_after_rename_without_original_name
           settingsWithoutOriginalName infoMyApp (lit "/ipa/game.ipa")).
  - reflexivity.
  - exists [lit "ipa"], (lit "game.ipa"). split; [proper_names | reflexivity].
  - vm_compute. discriminate.
  - vm_compute. reflexivity.
  - vm_compute. reflexivity.
Defined.
